(** * Template-style logging call rewriters

    A shallow embedding of the three log-call rewriting scripts

      - [scripts/fix_all_logging_phase2.py]  (class ComprehensiveLoggingFixer)
      - [scripts/fix_logerror_phase2.py]     (class LoggingParameterFixer)
      - [scripts/fix_logerror_systematic.py] (class LogErrorFixer)

    together with the fragment of Python's [str] and [re] that they use.

    Text is a list of characters; a character is a code point below 256.
    A file holds its text decoded from UTF-8; reading and writing go
    through the newline translation of Python's text mode, and the console
    can refuse a printed line (module [IO]). *)

From Stdlib Require Import List Ascii String Arith Bool Lia.
From stdpp Require Import base option gmap strings.
Import ListNotations.

Local Open Scope list_scope.
Local Open Scope nat_scope.

(** ** Text *)

Abbreviation text := (list ascii).

Definition dquote : ascii := "034"%char.
Definition backslash : ascii := "092"%char.
Definition newline : ascii := "010"%char.
Definition dollar : ascii := "$"%char.

(** [txt "..."] is the text of a literal in which every single quote
    stands for a double quote. *)
Definition txt (s : string) : text :=
  map (fun c => if Ascii.eqb c "'"%char then dquote else c)
      (list_ascii_of_string s).

Definition code (c : ascii) : nat := nat_of_ascii c.

Definition chr_is (a : ascii) : ascii -> bool := Ascii.eqb a.
Definition is_not (l : list ascii) : ascii -> bool :=
  fun c => negb (existsb (Ascii.eqb c) l).
Definition any_char : ascii -> bool := fun _ => true.

Fixpoint text_eqb (a b : text) : bool :=
  match a, b with
  | [], [] => true
  | x :: a', y :: b' => Ascii.eqb x y && text_eqb a' b'
  | _, _ => false
  end.

Fixpoint starts_with (p s : text) : bool :=
  match p, s with
  | [], _ => true
  | x :: p', y :: s' => Ascii.eqb x y && starts_with p' s'
  | _ :: _, [] => false
  end.

(** ** Python [str] methods used by the scripts *)

Module Py.

(** [str.isspace] on one character (also what [\s] matches in a [str]
    pattern): TAB..CR, FS..US, space, NEL and NBSP. *)
Definition isspace (c : ascii) : bool :=
  let n := code c in
  ((9 <=? n) && (n <=? 13)) || ((28 <=? n) && (n <=? 32))
  || (n =? 133) || (n =? 160).

(** What [\w] matches in a [str] pattern: alphanumeric characters and the
    underscore. *)
Definition isword (c : ascii) : bool :=
  let n := code c in
  ((48 <=? n) && (n <=? 57)) || ((65 <=? n) && (n <=? 90))
  || ((97 <=? n) && (n <=? 122)) || (n =? 95)
  || (n =? 170) || (n =? 178) || (n =? 179) || (n =? 181)
  || ((185 <=? n) && (n <=? 186)) || ((188 <=? n) && (n <=? 190))
  || ((192 <=? n) && (n <=? 214)) || ((216 <=? n) && (n <=? 246))
  || (248 <=? n).

Fixpoint lstrip_by (p : ascii -> bool) (s : text) : text :=
  match s with
  | c :: s' => if p c then lstrip_by p s' else s
  | [] => []
  end.

Definition rstrip_by (p : ascii -> bool) (s : text) : text :=
  rev (lstrip_by p (rev s)).

(** [s.strip()] *)
Definition strip (s : text) : text := rstrip_by isspace (lstrip_by isspace s).

(** [s.lstrip(',')] *)
Definition lstrip_commas (s : text) : text := lstrip_by (chr_is ","%char) s.

(** [s.replace(old, new)]: every non-overlapping occurrence, left to
    right.  [skip] counts the characters of an occurrence still to drop. *)
Fixpoint replace_go (old new : text) (skip : nat) (s : text) : text :=
  match s with
  | [] => []
  | c :: s' =>
      match skip with
      | S k => replace_go old new k s'
      | 0 => if starts_with old s
             then new ++ replace_go old new (List.length old - 1) s'
             else c :: replace_go old new 0 s'
      end
  end.

Definition replace (old new s : text) : text :=
  match old with
  | [] => new ++ flat_map (fun c => c :: new) s
  | _ :: _ => replace_go old new 0 s
  end.

(** [sep.join(l)] *)
Fixpoint join (sep : text) (l : list text) : text :=
  match l with
  | [] => []
  | [x] => x
  | x :: l' => x ++ sep ++ join sep l'
  end.

(** [s.split(c)] for a one-character separator: never an empty list. *)
Fixpoint split (c : ascii) (s : text) : list text :=
  match s with
  | [] => [[]]
  | x :: s' =>
      if Ascii.eqb x c then [] :: split c s'
      else match split c s' with
           | l :: ls => (x :: l) :: ls
           | [] => [[x]]
           end
  end.

(** [s[1:-1]] *)
Definition slice_1_m1 (s : text) : text := removelast (tl s).

(** [x in l] for a list of strings *)
Definition mem (x : text) (l : list text) : bool := existsb (text_eqb x) l.

(** [f'{{{x}}}'] *)
Definition braces (x : text) : text := "{"%char :: x ++ ["}"%char].

End Py.

(** ** Python [re]: a backtracking matcher

    Alternatives are tried left to right, greedy repetition tries one more
    iteration before stopping and lazy repetition the other way round, so
    the first success is the match that [re] reports.  The matcher runs in
    continuation-passing style: [k] is what has to match after [r]. *)

Module Re.

Inductive regex : Type :=
| Eps
| Chr (p : ascii -> bool)
| Seq (a b : regex)
| Alt (a b : regex)
| Star (a : regex)
| LazyStar (a : regex)
| Group (i : nat) (a : regex)
| WordB.

Definition Plus (a : regex) : regex := Seq a (Star a).
Definition Opt (a : regex) : regex := Alt a Eps.

Fixpoint Lit (l : text) : regex :=
  match l with
  | [] => Eps
  | c :: l' => Seq (Chr (chr_is c)) (Lit l')
  end.

(** The numbers of the groups of a pattern. *)
Fixpoint group_ids (r : regex) : list nat :=
  match r with
  | Eps | Chr _ | WordB => []
  | Seq a b | Alt a b => group_ids a ++ group_ids b
  | Star a | LazyStar a => group_ids a
  | Group i a => i :: group_ids a
  end.

(** Captured groups, most recent first. *)
Definition caps := list (nat * text).

Fixpoint group (e : caps) (i : nat) : option text :=
  match e with
  | [] => None
  | (j, t) :: e' => if Nat.eqb i j then Some t else group e' i
  end.

(** [\b]: exactly one of the characters before and after is a word
    character. *)
Definition at_boundary (prev : option ascii) (s : text) : bool :=
  xorb (match prev with Some c => Py.isword c | None => false end)
       (match s with c :: _ => Py.isword c | [] => false end).

Section Matcher.

Context {R : Type}.

Definition cont := option ascii -> text -> caps -> option R.

(** One repetition must consume input before the next one is tried; the
    input length bounds the number of repetitions. *)
Fixpoint run (r : regex) (prev : option ascii) (s : text) (e : caps)
    (k : cont) {struct r} : option R :=
  match r with
  | Eps => k prev s e
  | Chr p =>
      match s with
      | c :: s' => if p c then k (Some c) s' e else None
      | [] => None
      end
  | Seq a b => run a prev s e (fun prev' s' e' => run b prev' s' e' k)
  | Alt a b =>
      match run a prev s e k with
      | Some x => Some x
      | None => run b prev s e k
      end
  | Star a =>
      (fix loop (n : nat) (prev : option ascii) (s : text) (e : caps)
         : option R :=
         match n with
         | 0 => k prev s e
         | S n' =>
             match run a prev s e
                     (fun prev' s' e' =>
                        if List.length s' <? List.length s
                        then loop n' prev' s' e' else None) with
             | Some x => Some x
             | None => k prev s e
             end
         end) (List.length s) prev s e
  | LazyStar a =>
      (fix loop (n : nat) (prev : option ascii) (s : text) (e : caps)
         : option R :=
         match k prev s e with
         | Some x => Some x
         | None =>
             match n with
             | 0 => None
             | S n' =>
                 run a prev s e
                   (fun prev' s' e' =>
                      if List.length s' <? List.length s
                      then loop n' prev' s' e' else None)
             end
         end) (List.length s) prev s e
  | Group i a =>
      run a prev s e
        (fun prev' s' e' =>
           k prev' s' ((i, firstn (List.length s - List.length s') s) :: e'))
  | WordB => if at_boundary prev s then k prev s e else None
  end.

End Matcher.

(** A match object: the text before the match, [group(0)], the captured
    groups and the text after the match. *)
Record Match := {
  before : text;
  whole : text;
  groups : caps;
  after : text
}.

(** [m.group(i)].  A group that took no part in the match gives the empty
    text here; in the patterns of the scripts every group that is read
    takes part in every match. *)
Definition grp (m : Match) (i : nat) : text :=
  match group (groups m) i with Some t => t | None => [] end.

(** The pattern anchored at the start of [s]: remaining text and groups. *)
Definition match_here (r : regex) (prev : option ascii) (s : text)
  : option (text * caps) :=
  run r prev s [] (fun _ s' e => Some (s', e)).

(** [re.search]: the leftmost position at which the pattern matches.
    [pre] is the text already passed, reversed. *)
Fixpoint search_from (r : regex) (prev : option ascii) (pre : text)
    (s : text) : option Match :=
  match match_here r prev s with
  | Some (rest, e) =>
      Some {| before := rev pre;
              whole := firstn (List.length s - List.length rest) s;
              groups := e;
              after := rest |}
  | None =>
      match s with
      | [] => None
      | c :: s' => search_from r (Some c) (c :: pre) s'
      end
  end.

Definition search (r : regex) (s : text) : option Match :=
  search_from r None [] s.

Definition last_char (prev : option ascii) (s : text) : option ascii :=
  match rev s with c :: _ => Some c | [] => prev end.

(** The non-overlapping matches of [r] in [s], left to right, and the text
    after the last one.  A match that consumed nothing is followed by a
    step over one character. *)
Fixpoint scan (n : nat) (r : regex) (prev : option ascii) (s : text)
  : list Match * text :=
  match n with
  | 0 => ([], s)
  | S n' =>
      match search_from r prev [] s with
      | None => ([], s)
      | Some m =>
          match whole m, after m with
          | [], [] => ([m], [])
          | [], c :: rest =>
              let (ms, tl_) := scan n' r (Some c) rest in
              (m :: match ms with
                    | m' :: ms' =>
                        {| before := c :: before m'; whole := whole m';
                           groups := groups m'; after := after m' |} :: ms'
                    | [] => []
                    end,
               match ms with [] => c :: tl_ | _ => tl_ end)
          | _ :: _, rest =>
              let (ms, tl_) :=
                scan n' r (last_char prev (before m ++ whole m)) rest in
              (m :: ms, tl_)
          end
      end
  end.

Definition finditer (r : regex) (s : text) : list Match * text :=
  scan (S (List.length s)) r None s.

(** [re.findall] for a pattern with exactly one group. *)
Definition findall1 (r : regex) (s : text) : list text :=
  map (fun m => grp m 1) (fst (finditer r s)).

(** [re.sub(pattern, f, s)] with a function [f] for the replacement. *)
Definition sub_with (r : regex) (f : Match -> text) (s : text) : text :=
  let (ms, tl_) := finditer r s in
  flat_map (fun m => before m ++ f m) ms ++ tl_.

(** *** Replacement templates

    [re.sub] with a string for the replacement first parses the string:
    backslash escapes are processed and group references collected.  A
    malformed template raises [re.error], here [None]. *)

Inductive piece :=
| PLit (c : ascii)
| PGroup (i : nat).

Definition is_digit (c : ascii) : bool := (48 <=? code c) && (code c <=? 57).
Definition is_octdigit (c : ascii) : bool :=
  (48 <=? code c) && (code c <=? 55).
Definition is_ascii_letter (c : ascii) : bool :=
  ((65 <=? code c) && (code c <=? 90)) || ((97 <=? code c) && (code c <=? 122)).
Definition digit_val (c : ascii) : nat := code c - 48.

Fixpoint number (base : nat) (acc : nat) (ds : text) : nat :=
  match ds with
  | [] => acc
  | d :: ds' => number base (base * acc + digit_val d) ds'
  end.

(** The escapes that stand for one character: a b f n r t v and the
    backslash itself. *)
Definition escape_char (c : ascii) : option ascii :=
  if Ascii.eqb c "a" then Some "007"%char
  else if Ascii.eqb c "b" then Some "008"%char
  else if Ascii.eqb c "f" then Some "012"%char
  else if Ascii.eqb c "n" then Some "010"%char
  else if Ascii.eqb c "r" then Some "013"%char
  else if Ascii.eqb c "t" then Some "009"%char
  else if Ascii.eqb c "v" then Some "011"%char
  else if Ascii.eqb c backslash then Some backslash
  else None.

(** The text up to the first [>], and what follows it. *)
Fixpoint getuntil_gt (s : text) : option (text * text) :=
  match s with
  | [] => None
  | c :: s' =>
      if Ascii.eqb c ">" then Some ([], s')
      else match getuntil_gt s' with
           | Some (name, rest) => Some (c :: name, rest)
           | None => None
           end
  end.

(** [ngroups] is the number of groups of the pattern.  A group is named
    by decimal digits; the patterns of the scripts have no named group, so
    any other name raises. *)
Fixpoint parse_template (n : nat) (ngroups : nat) (s : text)
  : option (list piece) :=
  match n with
  | 0 => match s with [] => Some [] | _ :: _ => None end
  | S n' =>
      let continue_with (ps : list piece) (rest : text) :=
        match parse_template n' ngroups rest with
        | Some l => Some (ps ++ l)
        | None => None
        end in
      let group_ref (i : nat) (rest : text) :=
        if i <=? ngroups then continue_with [PGroup i] rest else None in
      match s with
      | [] => Some []
      | c :: s1 =>
          if negb (Ascii.eqb c backslash) then continue_with [PLit c] s1
          else
            match s1 with
            | [] => None
            | e :: s2 =>
                if Ascii.eqb e "g" then
                  match s2 with
                  | lt :: s3 =>
                      if Ascii.eqb lt "<" then
                        match getuntil_gt s3 with
                        | Some (d :: ds, rest) =>
                            if forallb is_digit (d :: ds)
                            then group_ref (number 10 0 (d :: ds)) rest
                            else None
                        | _ => None
                        end
                      else None
                  | [] => None
                  end
                else if Ascii.eqb e "0" then
                  match s2 with
                  | d1 :: s3 =>
                      if is_octdigit d1 then
                        match s3 with
                        | d2 :: s4 =>
                            if is_octdigit d2
                            then continue_with
                                   [PLit (ascii_of_nat
                                            (number 8 0 [d1; d2] mod 256))] s4
                            else continue_with
                                   [PLit (ascii_of_nat (digit_val d1))] s3
                        | [] => continue_with
                                  [PLit (ascii_of_nat (digit_val d1))] s3
                        end
                      else continue_with [PLit "000"%char] s2
                  | [] => continue_with [PLit "000"%char] s2
                  end
                else if is_digit e then
                  match s2 with
                  | d1 :: s3 =>
                      if is_digit d1 then
                        match s3 with
                        | d2 :: s4 =>
                            if is_octdigit e && is_octdigit d1
                               && is_octdigit d2
                            then
                              let v := number 8 0 [e; d1; d2] in
                              if v <=? 255
                              then continue_with [PLit (ascii_of_nat v)] s4
                              else None
                            else group_ref (number 10 0 [e; d1]) s3
                        | [] => group_ref (number 10 0 [e; d1]) s3
                        end
                      else group_ref (digit_val e) s2
                  | [] => group_ref (digit_val e) s2
                  end
                else
                  match escape_char e with
                  | Some x => continue_with [PLit x] s2
                  | None =>
                      if is_ascii_letter e then None
                      else continue_with [PLit backslash; PLit e] s2
                  end
            end
      end
  end.

Definition expand (m : Match) (ps : list piece) : text :=
  flat_map (fun p => match p with
                     | PLit c => [c]
                     | PGroup 0 => whole m
                     | PGroup i => grp m i
                     end) ps.

(** [re.sub(pattern, repl, s)] with a string [repl]; [ngroups] is the
    number of groups of [pattern]. *)
Definition sub_str (r : regex) (ngroups : nat) (repl : text) (s : text)
  : option text :=
  match parse_template (S (List.length repl)) ngroups repl with
  | None => None
  | Some ps => Some (sub_with r (fun m => expand m ps) s)
  end.

End Re.

Import Re.

Declare Scope regex_scope.
Delimit Scope regex_scope with re.
Bind Scope regex_scope with regex.
Infix "~>" := Seq (at level 60, right associativity) : regex_scope.
Infix "<|>" := Alt (at level 85, right associativity) : regex_scope.

(** Pieces shared by the patterns of the three scripts. *)

(** [(?:TradingLogOrchestrator\.Instance\.|_logger\.)] *)
Definition receivers : list text :=
  [txt "TradingLogOrchestrator.Instance."; txt "_logger."].

Definition receiver_re : regex :=
  (Lit (txt "TradingLogOrchestrator.Instance.") <|> Lit (txt "_logger."))%re.

(** The first group of every pattern: receiver, method name and the
    opening parenthesis. *)
Definition call_prefix (method : text) : regex :=
  Group 1 (receiver_re ~> Lit method ~> Chr (chr_is "("))%re.

(** [\s], [\w] *)
Definition ws : regex := Chr Py.isspace.
Definition word : regex := Chr Py.isword.

(** [\{([^}]+)\}] *)
Definition placeholder_re : regex :=
  (Chr (chr_is "{") ~> Group 1 (Plus (Chr (is_not ["}"%char])))
   ~> Chr (chr_is "}"))%re.

(** * [fix_all_logging_phase2.py]: class ComprehensiveLoggingFixer *)

Module ComprehensiveLoggingFixer.

Definition logging_methods : list text :=
  [txt "LogError"; txt "LogInfo"; txt "LogWarning"; txt "LogDebug";
   txt "LogTrace"].

(** [(?:[^'\\]|\\.)] under [re.DOTALL]; in the comments a single quote
    stands for the double quote of the source, as in [txt]. *)
Definition str_char : regex :=
  (Chr (is_not [dquote; backslash])
   <|> (Chr (chr_is backslash) ~> Chr any_char))%re.

(** The pattern of line 33, one capturing group per line:
<<
  ((?:TradingLogOrchestrator\.Instance\.|_logger\.){method}\()
  ('(?:[^'\\]|\\.)*\{[^}]+\}(?:[^'\\]|\\.)*')
  ((?:\s*,\s*[^,)]+)+)
  (\s*\))
>> *)
Definition pattern (method : text) : regex :=
  (call_prefix method
   ~> Group 2 (Chr (chr_is dquote) ~> Star str_char
                ~> Chr (chr_is "{") ~> Plus (Chr (is_not ["}"%char]))
                ~> Chr (chr_is "}")
                ~> Star str_char ~> Chr (chr_is dquote))
   ~> Group 3 (Plus (Star ws ~> Chr (chr_is ",") ~> Star ws
                      ~> Plus (Chr (is_not [","%char; ")"%char]))))
   ~> Group 4 (Star ws ~> Chr (chr_is ")")))%re.

(** The state of the parameter splitting loop of lines 52-77. *)
Record split_state := {
  current_param : text;
  paren_depth : Z;
  in_quotes : bool;
  param_list : list text
}.

Definition split_init : split_state :=
  {| current_param := []; paren_depth := 0%Z; in_quotes := false;
     param_list := [] |}.

Definition flush (cur : text) (l : list text) : list text :=
  match Py.strip cur with
  | [] => l
  | p => l ++ [p]
  end.

(** [i == 0 or param_str[i-1] != '\\'], with [prev] for [param_str[i-1]],
    absent when [i == 0]. *)
Definition not_escaped (prev : option ascii) : bool :=
  match prev with
  | None => true
  | Some c => negb (Ascii.eqb c backslash)
  end.

(** One iteration on [char = param_str[i]]. *)
Definition split_step (prev : option ascii) (char : ascii)
    (st : split_state) : split_state :=
  let keep st' :=
    {| current_param := current_param st' ++ [char];
       paren_depth := paren_depth st'; in_quotes := in_quotes st';
       param_list := param_list st' |} in
  if Ascii.eqb char dquote && not_escaped prev
  then keep {| current_param := current_param st;
               paren_depth := paren_depth st;
               in_quotes := negb (in_quotes st);
               param_list := param_list st |}
  else if Ascii.eqb char "(" && negb (in_quotes st)
  then keep {| current_param := current_param st;
               paren_depth := (paren_depth st + 1)%Z;
               in_quotes := in_quotes st;
               param_list := param_list st |}
  else if Ascii.eqb char ")" && negb (in_quotes st)
  then keep {| current_param := current_param st;
               paren_depth := (paren_depth st - 1)%Z;
               in_quotes := in_quotes st;
               param_list := param_list st |}
  else if Ascii.eqb char "," && (paren_depth st =? 0)%Z
          && negb (in_quotes st)
  then {| current_param := [];
          paren_depth := paren_depth st; in_quotes := in_quotes st;
          param_list := flush (current_param st) (param_list st) |}
  else keep st.

Fixpoint split_loop (prev : option ascii) (param_str : text)
    (st : split_state) : split_state :=
  match param_str with
  | [] => st
  | char :: rest => split_loop (Some char) rest (split_step prev char st)
  end.

Definition split_params (param_str : text) : list text :=
  let st := split_loop None param_str split_init in
  flush (current_param st) (param_list st).

Definition exception_names : list text := [txt "ex"; txt "exception"; txt "e"].

(** Lines 80-84: a last parameter that names the exception is taken off
    the list. *)
Definition pop_exception (params : list text) : list text * option text :=
  match rev params with
  | p :: _ =>
      if Py.mem (Py.strip p) exception_names
      then (removelast params, Some p) else (params, None)
  | [] => (params, None)
  end.

(** Lines 87-91: the [i]-th placeholder is replaced by the [i]-th
    parameter while there is one. *)
Fixpoint bind (placeholders params : list text) (template_str : text)
  : text :=
  match placeholders, params with
  | placeholder :: ps, value :: vs =>
      bind ps vs
        (Py.replace (Py.braces placeholder) (Py.braces value) template_str)
  | _, _ => template_str
  end.

(** The replacement for one match and whether it counts as a change. *)
Definition replacer (m : Match) : text * bool :=
  let prefix := grp m 1 in
  let template := grp m 2 in
  let params := grp m 3 in
  let suffix := grp m 4 in
  match findall1 placeholder_re template with
  | [] => (whole m, false)
  | placeholders =>
      let param_str := Py.strip (Py.lstrip_commas (Py.strip params)) in
      let (params', exception_param) :=
        pop_exception (split_params param_str) in
      let template_str :=
        bind placeholders params' (Py.slice_1_m1 template) in
      let result :=
        match exception_param with
        | Some ex =>
            prefix ++ txt "$'" ++ template_str ++ txt "', " ++ ex ++ suffix
        | None => prefix ++ txt "$'" ++ template_str ++ txt "'" ++ suffix
        end in
      (result, true)
  end.

(** One [re.sub] of the loop of line 30. *)
Definition fix_method (method : text) (acc : text * nat) : text * nat :=
  let (content, changes) := acc in
  let (ms, rest) := finditer (pattern method) content in
  (flat_map (fun m => before m ++ fst (replacer m)) ms ++ rest,
   changes + List.length (filter (fun m => snd (replacer m)) ms)).

Definition fix_logging_call (content : text) : text * nat :=
  fold_left (fun acc method => fix_method method acc) logging_methods
            (content, 0).

End ComprehensiveLoggingFixer.

(** * [fix_logerror_phase2.py]: class LoggingParameterFixer *)

Module LoggingParameterFixer.

Import ComprehensiveLoggingFixer.

(** [.] without [re.DOTALL] *)
Definition dot : regex := Chr (is_not [newline]).

(** The pattern of line 52:
<<
  ((?:TradingLogOrchestrator\.Instance\.|_logger\.){method_name}\()
  '([^']+)'
  (.*?)
  (\);?)
>> *)
Definition pattern (method_name : text) : regex :=
  (call_prefix method_name
   ~> Chr (chr_is dquote)
   ~> Group 2 (Plus (Chr (is_not [dquote])))
   ~> Chr (chr_is dquote)
   ~> Group 3 (LazyStar dot)
   ~> Group 4 (Chr (chr_is ")") ~> Opt (Chr (chr_is ";"))))%re.

(** [not current_param or current_param[-1] != '\\'] *)
Definition not_escaped_last (current_param : text) : bool :=
  match rev current_param with
  | [] => true
  | c :: _ => negb (Ascii.eqb c backslash)
  end.

(** One iteration of the loop of lines 82-95. *)
Definition split_step (char : ascii) (st : split_state) : split_state :=
  let keep st' :=
    {| current_param := current_param st' ++ [char];
       paren_depth := paren_depth st'; in_quotes := in_quotes st';
       param_list := param_list st' |} in
  if Ascii.eqb char dquote && not_escaped_last (current_param st)
  then keep {| current_param := current_param st;
               paren_depth := paren_depth st;
               in_quotes := negb (in_quotes st);
               param_list := param_list st |}
  else if Ascii.eqb char "(" && negb (in_quotes st)
  then keep {| current_param := current_param st;
               paren_depth := (paren_depth st + 1)%Z;
               in_quotes := in_quotes st;
               param_list := param_list st |}
  else if Ascii.eqb char ")" && negb (in_quotes st)
  then keep {| current_param := current_param st;
               paren_depth := (paren_depth st - 1)%Z;
               in_quotes := in_quotes st;
               param_list := param_list st |}
  else if Ascii.eqb char "," && (paren_depth st =? 0)%Z
          && negb (in_quotes st)
  then {| current_param := [];
          paren_depth := paren_depth st; in_quotes := in_quotes st;
          param_list := flush (current_param st) (param_list st) |}
  else keep st.

Definition split_loop (param_str : text) (st : split_state) : split_state :=
  fold_left (fun st char => split_step char st) param_str st.

(** Lines 76-98. *)
Definition split_params (param_str : text) : list text :=
  match param_str with
  | [] => []
  | _ :: _ =>
      let st := split_loop param_str split_init in
      flush (current_param st) (param_list st)
  end.

(** Lines 70-72. *)
Definition param_str_of (params_section : text) : text :=
  match Py.strip params_section with
  | c :: rest => if Ascii.eqb c "," then Py.strip rest else c :: rest
  | [] => []
  end.

Definition fix_logging_call (line method_name : text) : text * bool :=
  match search (pattern method_name) line with
  | None => (line, false)
  | Some m =>
      let prefix := grp m 1 in
      let message := grp m 2 in
      let params_section := grp m 3 in
      let suffix := grp m 4 in
      match findall1 placeholder_re message with
      | [] => (line, false)
      | placeholders =>
          let params := split_params (param_str_of params_section) in
          if List.length placeholders <=? List.length params then
            let new_message := bind placeholders params message in
            let remaining_params := skipn (List.length placeholders) params in
            match remaining_params with
            | _ :: _ =>
                (prefix ++ txt "$'" ++ new_message ++ txt "', "
                 ++ Py.join (txt ", ") remaining_params ++ suffix, true)
            | [] => (prefix ++ txt "$'" ++ new_message ++ txt "'" ++ suffix,
                     true)
            end
          else (line, false)
      end
  end.

Definition fix_line (line : text) : text * nat :=
  fold_left
    (fun (acc : text * nat) method =>
       let (line, changes) := acc in
       let (new_line, changed) := fix_logging_call line method in
       if changed then (new_line, changes + 1) else (line, changes))
    logging_methods (line, 0).

End LoggingParameterFixer.

(** * [fix_logerror_systematic.py]: class LogErrorFixer *)

Module LogErrorFixer.

(** [((?:TradingLogOrchestrator\.Instance\.|_logger\.)LogError\()] *)
Definition prefix_re : regex := call_prefix (txt "LogError").

Definition not_quote : regex := Chr (is_not [dquote]).
Definition not_comma : regex := Chr (is_not [","%char]).

(** [\{[^}]+\}] *)
Definition hole : regex :=
  (Chr (chr_is "{") ~> Plus (Chr (is_not ["}"%char])) ~> Chr (chr_is "}"))%re.

(** [(ex\b)] as group [i] *)
Definition ex_word (i : nat) : regex :=
  Group i (Lit (txt "ex") ~> WordB)%re.

(** Line 29, the pieces set apart by spaces:
<<
  (...LogError\() ' ( [^']+ \{[^}]+\} [^']* ) '
  ( \s*,\s* ) ( [^,]+ ) ( ,\s* ) ( ex\b )
>> *)
Definition pattern1 : regex :=
  (prefix_re ~> Chr (chr_is dquote)
   ~> Group 2 (Plus not_quote ~> hole ~> Star not_quote)
   ~> Chr (chr_is dquote)
   ~> Group 3 (Star ws ~> Chr (chr_is ",") ~> Star ws)
   ~> Group 4 (Plus not_comma)
   ~> Group 5 (Chr (chr_is ",") ~> Star ws)
   ~> ex_word 6)%re.

(** Line 47, the pieces set apart by spaces:
<<
  (...LogError\() ' ( [^']+ \{[^}]+\} [^']* \{[^}]+\} [^']* ) '
  ( \s*,\s* ) ( [^,]+ ) ( ,\s* ) ( [^,]+ ) ( ,\s* ) ( ex\b )
>> *)
Definition pattern2 : regex :=
  (prefix_re ~> Chr (chr_is dquote)
   ~> Group 2 (Plus not_quote ~> hole ~> Star not_quote ~> hole
               ~> Star not_quote)
   ~> Chr (chr_is dquote)
   ~> Group 3 (Star ws ~> Chr (chr_is ",") ~> Star ws)
   ~> Group 4 (Plus not_comma)
   ~> Group 5 (Chr (chr_is ",") ~> Star ws)
   ~> Group 6 (Plus not_comma)
   ~> Group 7 (Chr (chr_is ",") ~> Star ws)
   ~> ex_word 8)%re.

(** Line 67: [(...LogError\() ( ex\s*,\s* ) ' ( [^']+ ) '] *)
Definition pattern3 : regex :=
  (prefix_re
   ~> Group 2 (Lit (txt "ex") ~> Star ws ~> Chr (chr_is ",") ~> Star ws)
   ~> Chr (chr_is dquote) ~> Group 3 (Plus not_quote)
   ~> Chr (chr_is dquote))%re.

(** Lines 31-44.  [None]: the line falls through to the next pattern. *)
Definition try_pattern1 (line : text) : option text :=
  match search pattern1 line with
  | Some m =>
      match findall1 placeholder_re (grp m 2) with
      | [p] =>
          Some (grp m 1 ++ txt "$'"
                ++ Py.replace (Py.braces p) (Py.braces (Py.strip (grp m 4)))
                     (grp m 2)
                ++ txt "', ex")
      | _ => None
      end
  | None => None
  end.

(** Lines 49-64. *)
Definition try_pattern2 (line : text) : option text :=
  match search pattern2 line with
  | Some m =>
      match findall1 placeholder_re (grp m 2) with
      | [p0; p1] =>
          let new_message :=
            Py.replace (Py.braces p0) (Py.braces (Py.strip (grp m 4)))
              (grp m 2) in
          Some (grp m 1 ++ txt "$'"
                ++ Py.replace (Py.braces p1) (Py.braces (Py.strip (grp m 6)))
                     new_message
                ++ txt "', ex")
      | _ => None
      end
  | None => None
  end.

(** Lines 68-75.  The replacement of [re.sub] is the string
    [f'{prefix}"{message}", ex'], a template in which [re.sub] processes
    backslash escapes.  Outer [None]: no match; inner [None]: [re.error]. *)
Definition try_pattern3 (line : text) : option (option text) :=
  match search pattern3 line with
  | Some m =>
      Some (sub_str pattern3 3
              (grp m 1 ++ [dquote] ++ grp m 3 ++ txt "', ex") line)
  | None => None
  end.

(** The body of the loop of line 24 for one line: the new line and whether
    it counts as a change, or [None] when [re.sub] raises.  The fourth
    pattern (lines 79-103) changes neither the line nor the count; the
    line that it prints is in [LogErrorFiles]. *)
Definition fix_one_line (line : text) : option (text * bool) :=
  match try_pattern1 line with
  | Some l => Some (l, true)
  | None =>
      match try_pattern2 line with
      | Some l => Some (l, true)
      | None =>
          match try_pattern3 line with
          | Some (Some l) => Some (l, true)
          | Some None => None
          | None => Some (line, false)
          end
      end
  end.

Fixpoint fix_lines (lines : list text) : option (list text * nat) :=
  match lines with
  | [] => Some ([], 0)
  | line :: rest =>
      match fix_one_line line with
      | None => None
      | Some (l, changed) =>
          match fix_lines rest with
          | None => None
          | Some (ls, n) => Some (l :: ls, if changed then S n else n)
          end
      end
  end.

(** [fix_logerror_patterns]: [None] when an exception leaves the function. *)
Definition fix_logerror_patterns (content : text) : option (text * nat) :=
  match fix_lines (Py.split newline content) with
  | Some (lines, changes) => Some (Py.join [newline] lines, changes)
  | None => None
  end.

(** The number of lines of a text, as [content.split('\n')] counts them. *)
Definition line_count (content : text) : nat :=
  List.length (Py.split newline content).

End LogErrorFixer.

(** * Files and the console

    The file system is a finite map from paths to the text that the file
    at the path holds, decoded from UTF-8; a path outside the map cannot
    be read (there is no such file, or it does not hold UTF-8).  A file is
    opened in text mode with universal newlines: what is read has a line
    feed for every line end, and every line feed that is written becomes
    the line separator of the platform.

    Opening a file for writing can be refused.  When it is not, the file
    is emptied, and the write that follows can still break off; what the
    file then holds is for the world to say.  Every attempt to write is
    logged, so that the order of the writes can be stated.

    [print] hands a line to the console, which can refuse it: the marks
    U+2713 and U+2717 that open some of the lines are outside the
    characters of many console encodings, and [print] then raises
    [UnicodeEncodeError]. *)

Module IO.

Inductive event :=
| Wrote (path : string) (content : text)
| WriteFailed (path : string)
| WriteBroke (path : string).

(** The lines that the scripts print, one constructor for each
    [print(...)]; the exact wording and the text of an exception are left
    out.
    - [Fixed]: U+2713, Fixed [changes] ... calls in [file]
    - [NoChanges]: No changes needed in [file]
    - [Failed]: U+2717, Error processing [file]: the exception
    - [LineFixed]: Line [line_num]: Fixed [changes] logging call(s)
    - [ComplexPattern]: Complex pattern in [line_num]: [line]
    - [FixedCall], [From], [To]: the three lines of the verbose replacer *)
Inductive output :=
| Fixed (changes : nat) (file : string)
| NoChanges (file : string)
| Failed (file : string)
| LineFixed (line_num changes : nat)
| ComplexPattern (line_num : nat) (line : text)
| FixedCall (method : text)
| From (matched : text)
| To (result : text).

(** The lines that open with a mark outside Latin-1. *)
Definition has_mark (o : output) : bool :=
  match o with
  | Fixed _ _ | Failed _ => true
  | _ => false
  end.

Record world := {
  files : gmap string text;
  writable : string -> bool;
  breaks : string -> option (option text);
  linesep : text;
  console : output -> bool;
  log : list event;
  stdout : list output
}.

(** The world after an attempt to write. *)
Definition after_write (w : world) (fs : gmap string text) (ev : event)
  : world :=
  {| files := fs; writable := writable w; breaks := breaks w;
     linesep := linesep w; console := console w;
     log := log w ++ [ev]; stdout := stdout w |}.

(** The world after a line was printed. *)
Definition after_print (w : world) (o : output) : world :=
  {| files := files w; writable := writable w; breaks := breaks w;
     linesep := linesep w; console := console w;
     log := log w; stdout := stdout w ++ [o] |}.

(** A computation that may raise: [None] is an exception. *)
Definition io (A : Type) : Type := world -> option A * world.

Definition ret {A} (a : A) : io A := fun w => (Some a, w).

Definition raise {A} : io A := fun w => (None, w).

Definition bind {A B} (c : io A) (k : A -> io B) : io B :=
  fun w => match c w with
           | (Some a, w') => k a w'
           | (None, w') => (None, w')
           end.

(** [try: c except Exception: handler]; what the handler raises leaves
    the statement. *)
Definition try_except {A} (c : io A) (handler : io A) : io A :=
  fun w => match c w with
           | (Some x, w') => (Some x, w')
           | (None, w') => handler w'
           end.

Definition carriage_return : ascii := "013"%char.

(** What [f.read()] makes of the text of a file: a line feed for CR LF
    and for a lone CR. *)
Fixpoint universal_newlines (s : text) : text :=
  match s with
  | [] => []
  | c :: s' =>
      if Ascii.eqb c carriage_return then
        newline :: match s' with
                   | d :: s'' =>
                       if Ascii.eqb d newline then universal_newlines s''
                       else universal_newlines s'
                   | [] => []
                   end
      else c :: universal_newlines s'
  end.

(** What [f.write(content)] puts into the file: [os.linesep] for every
    line feed. *)
Definition written_newlines (linesep : text) (content : text) : text :=
  flat_map (fun c => if Ascii.eqb c newline then linesep else [c]) content.

(** [with open(path, 'r', encoding='utf-8') as f: f.read()] *)
Definition read_text (path : string) : io text :=
  fun w => (match files w !! path with
            | Some disk => Some (universal_newlines disk)
            | None => None
            end, w).

(** [with open(path, 'w', encoding='utf-8') as f: f.write(content)] *)
Definition write_text (path : string) (content : text) : io unit :=
  fun w =>
    if writable w path then
      match breaks w path with
      | None =>
          let disk := written_newlines (linesep w) content in
          (Some tt, after_write w (<[path := disk]> (files w))
                      (Wrote path disk))
      | Some (Some remains) =>
          (None, after_write w (<[path := remains]> (files w))
                   (WriteBroke path))
      | Some None =>
          (None, after_write w (delete path (files w)) (WriteBroke path))
      end
    else (None, after_write w (files w) (WriteFailed path)).

(** [print(line)] *)
Definition print (o : output) : io unit :=
  fun w => if console w o then (Some tt, after_print w o) else (None, w).

(** [filepath.with_suffix(filepath.suffix + ext)] *)
Definition with_added_suffix (filepath ext : string) : string :=
  (filepath ++ ext)%string.

End IO.

Notation "x <- c ;; k" := (IO.bind c (fun x => k))
  (at level 100, c at next level, right associativity).

Module ComprehensiveFiles.

Import IO ComprehensiveLoggingFixer.

(** Lines 102-105: what [replacer] prints for a match when the fixer was
    made with [verbose=True]. *)
Definition verbose_lines (method : text) (m : Match) : list output :=
  if snd (replacer m)
  then [FixedCall method; From (whole m); To (fst (replacer m))]
  else [].

Fixpoint print_all (lines : list output) : io unit :=
  match lines with
  | [] => ret tt
  | o :: rest => _ <- print o ;; print_all rest
  end.

(** [fix_logging_call] with its printing: [re.sub] calls [replacer] on the
    matches from left to right, and a [print] that raises ends the
    call.  [acc] is [content, changes] before the methods that are left. *)
Fixpoint fix_methods (verbose : bool) (methods : list text)
    (acc : text * nat) : io (text * nat) :=
  match methods with
  | [] => ret acc
  | method :: rest =>
      _ <- (if verbose
            then print_all
                   (flat_map (verbose_lines method)
                      (fst (finditer (pattern method) (fst acc))))
            else ret tt) ;;
      fix_methods verbose rest (fix_method method acc)
  end.

(** [ComprehensiveLoggingFixer.process_file], lines 113-144, for a fixer
    made with [verbose]. *)
Definition process_file (verbose : bool) (filepath : string) : io bool :=
  try_except
    (original_content <- read_text filepath ;;
     fixed <- fix_methods verbose logging_methods (original_content, 0) ;;
     let (fixed_content, changes) := fixed : text * nat in
     if 0 <? changes then
       let backup_path := with_added_suffix filepath ".bak_phase2" in
       _ <- write_text backup_path original_content ;;
       _ <- write_text filepath fixed_content ;;
       _ <- print (Fixed changes filepath) ;;
       ret true
     else
       _ <- (if verbose then print (NoChanges filepath) else ret tt) ;;
       ret false)
    (_ <- print (Failed filepath) ;; ret false).

End ComprehensiveFiles.

Module ParameterFiles.

Import IO LoggingParameterFixer.

(** [f.readlines()]: the lines with their terminators. *)
Fixpoint readlines_go (cur : text) (s : text) : list text :=
  match s with
  | [] => match cur with [] => [] | _ :: _ => [rev cur] end
  | c :: s' =>
      if Ascii.eqb c newline then rev (c :: cur) :: readlines_go [] s'
      else readlines_go (c :: cur) s'
  end.

Definition readlines (content : text) : list text := readlines_go [] content.

(** [line.rstrip('\n')] *)
Definition rstrip_newline (line : text) : text :=
  Py.rstrip_by (chr_is newline) line.

(** [f.writelines(line + '\n' for line in lines)] *)
Definition with_newlines (lines : list text) : text :=
  flat_map (fun line => line ++ [newline]) lines.

(** The loop of lines 149-156 from line number [line_num] on; [acc] is
    [new_lines, modified, file_changes]. *)
Fixpoint fix_lines (line_num : nat) (lines : list text)
    (acc : list text * bool * nat) : io (list text * bool * nat) :=
  match lines with
  | [] => ret acc
  | line :: rest =>
      let '(new_lines, modified, file_changes) := acc in
      let (new_line, changes) := fix_line (rstrip_newline line) in
      if 0 <? changes then
        _ <- print (LineFixed line_num changes) ;;
        fix_lines (S line_num) rest
          (new_lines ++ [new_line], true, file_changes + changes)
      else
        fix_lines (S line_num) rest
          (new_lines ++ [new_line], modified, file_changes)
  end.

(** [LoggingParameterFixer.process_file], lines 139-176. *)
Definition process_file (filepath : string) : io bool :=
  try_except
    (content <- read_text filepath ;;
     let lines := readlines content in
     looped <- fix_lines 1 lines ([], false, 0) ;;
     let '(new_lines, modified, file_changes) :=
       looped : list text * bool * nat in
     if modified then
       let backup_path := with_added_suffix filepath ".bak_phase2" in
       _ <- write_text backup_path (with_newlines lines) ;;
       _ <- write_text filepath (with_newlines new_lines) ;;
       _ <- print (Fixed file_changes filepath) ;;
       ret true
     else ret false)
    (_ <- print (Failed filepath) ;; ret false).

End ParameterFiles.

(** * The binding rule of the specification

    A second definition of placeholder binding, written from the words of
    the specification (section 4.3) to be compared with [bind]: the
    distinct placeholder names are taken in first-seen order, the [i]-th
    name is bound to the [i]-th argument, and every occurrence of a name
    is replaced by the text of its argument.  Binding fails when there are
    more distinct names than arguments. *)

Module Spec.

Fixpoint distinct (seen l : list text) : list text :=
  match l with
  | [] => []
  | x :: l' =>
      if Py.mem x seen then distinct seen l' else x :: distinct (x :: seen) l'
  end.

Fixpoint index_of (x : text) (l : list text) : option nat :=
  match l with
  | [] => None
  | y :: l' =>
      if text_eqb x y then Some 0
      else match index_of x l' with Some i => Some (S i) | None => None end
  end.

Definition bind_distinct (template_str : text) (args : list text)
  : option text :=
  let (ms, rest) := finditer placeholder_re template_str in
  let names := distinct [] (map (fun m => grp m 1) ms) in
  if List.length names <=? List.length args then
    Some (flat_map
            (fun m =>
               before m
               ++ Py.braces (match index_of (grp m 1) names with
                             | Some i => nth i args (grp m 1)
                             | None => grp m 1
                             end)) ms
          ++ rest)
  else None.

End Spec.

(** * More of the scripts *)

(** ** [LoggingParameterFixer.extract_placeholder_values]

    Lines 20-47 of [fix_logerror_phase2.py].  [start_pos] is any integer;
    a negative index counts from the end of the line, and an index before
    the start of the line raises [IndexError], here [None]. *)

Module ParameterScanner.

(** [line[pos]] *)
Definition char_at (line : text) (pos : Z) : option ascii :=
  let len := Z.of_nat (List.length line) in
  if (0 <=? pos)%Z then nth_error line (Z.to_nat pos)
  else if (- len <=? pos)%Z then nth_error line (Z.to_nat (len + pos))
  else None.

Record scan_state := {
  paren_count : Z;
  pos : Z;
  method_call : text;
  in_string : bool;
  escape_next : bool
}.

Definition scan_init (start_pos : Z) : scan_state :=
  {| paren_count := 1; pos := start_pos; method_call := [];
     in_string := false; escape_next := false |}.

(** The test of the [while] loop. *)
Definition scanning (line : text) (st : scan_state) : bool :=
  (pos st <? Z.of_nat (List.length line))%Z && (0 <? paren_count st)%Z.

(** The body of the loop on [char = line[pos]]. *)
Definition scan_step (char : ascii) (st : scan_state) : scan_state :=
  let st' (count : Z) (in_str esc : bool) :=
    {| paren_count := count; pos := (pos st + 1)%Z;
       method_call := method_call st ++ [char];
       in_string := in_str; escape_next := esc |} in
  if escape_next st then st' (paren_count st) (in_string st) false
  else if Ascii.eqb char backslash
  then st' (paren_count st) (in_string st) true
  else if Ascii.eqb char dquote && negb (in_string st)
  then st' (paren_count st) true false
  else if Ascii.eqb char dquote && in_string st
  then st' (paren_count st) false false
  else if Ascii.eqb char "(" && negb (in_string st)
  then st' (paren_count st + 1)%Z (in_string st) false
  else if Ascii.eqb char ")" && negb (in_string st)
  then st' (paren_count st - 1)%Z (in_string st) false
  else st' (paren_count st) (in_string st) false.

(** The loop, with a bound on the number of iterations. *)
Fixpoint scan_loop (fuel : nat) (line : text) (st : scan_state)
  : option scan_state :=
  if scanning line st then
    match fuel with
    | 0 => Some st
    | S fuel' =>
        match char_at line (pos st) with
        | None => None
        | Some char => scan_loop fuel' line (scan_step char st)
        end
    end
  else Some st.

(** Every iteration moves [pos] one step towards the end of the line. *)
Definition steps_to_end (line : text) (start_pos : Z) : nat :=
  Z.to_nat (Z.of_nat (List.length line) - start_pos).

Definition extract_placeholder_values (line : text) (start_pos : Z)
  : option (text * list text * Z) :=
  match scan_loop (steps_to_end line start_pos) line (scan_init start_pos) with
  | Some st => Some (method_call st, [], pos st)
  | None => None
  end.

(** The depth of parentheses after a text that starts inside one. *)
Fixpoint depth_after (depth : Z) (t : text) : Z :=
  match t with
  | [] => depth
  | c :: t' =>
      depth_after
        (if Ascii.eqb c "(" then depth + 1
         else if Ascii.eqb c ")" then depth - 1 else depth)%Z t'
  end.

End ParameterScanner.

(** ** The splitting loops with their indexing written out

    The loops of lines 52-77 of [fix_all_logging_phase2.py] and of lines
    78-98 of [fix_logerror_phase2.py] once more, here with every
    subscript as Python evaluates it: [char_at] is [None] where Python
    raises [IndexError], and so is the loop then.  [split_step] of the
    two scripts says what one round does to the state. *)

Module IndexedSplitter.

Import ParameterScanner.

(** [char == '"' and (i == 0 or param_str[i-1] != '\\')]: the character
    before the quote, looked up only for a quote and only when [i] is not
    zero.  The outer [None] is [IndexError]. *)
Definition before_quote (param_str : text) (i : nat) (char : ascii)
  : option (option ascii) :=
  if Ascii.eqb char dquote then
    if i =? 0 then Some None
    else match char_at param_str (Z.of_nat i - 1) with
         | Some c => Some (Some c)
         | None => None
         end
  else Some None.

(** The [while] loop of line 57 from index [i] on; every round moves [i]
    one step on, so [fuel] rounds are enough when [fuel] is the length
    of [param_str].  Out of fuel is [None] as well. *)
Fixpoint while_loop (fuel : nat) (param_str : text) (i : nat)
    (st : ComprehensiveLoggingFixer.split_state)
  : option ComprehensiveLoggingFixer.split_state :=
  if i <? List.length param_str then
    match fuel with
    | 0 => None
    | S fuel' =>
        match char_at param_str (Z.of_nat i) with
        | None => None
        | Some char =>
            match before_quote param_str i char with
            | None => None
            | Some prev =>
                while_loop fuel' param_str (S i)
                  (ComprehensiveLoggingFixer.split_step prev char st)
            end
        end
    end
  else Some st.

(** Lines 52-77. *)
Definition split_params (param_str : text) : option (list text) :=
  match while_loop (List.length param_str) param_str 0
          ComprehensiveLoggingFixer.split_init with
  | Some st =>
      Some (ComprehensiveLoggingFixer.flush
              (ComprehensiveLoggingFixer.current_param st)
              (ComprehensiveLoggingFixer.param_list st))
  | None => None
  end.

(** [char == '"' and (not current_param or current_param[-1] != '\\')]:
    the subscript is evaluated only for a quote and only when
    [current_param] is not empty. *)
Definition last_looked_up (current_param : text) (char : ascii)
  : option unit :=
  if Ascii.eqb char dquote then
    match current_param with
    | [] => Some tt
    | _ :: _ =>
        match char_at current_param (-1) with
        | Some _ => Some tt
        | None => None
        end
    end
  else Some tt.

(** The [for] loop of line 82. *)
Fixpoint for_loop (param_str : text)
    (st : ComprehensiveLoggingFixer.split_state)
  : option ComprehensiveLoggingFixer.split_state :=
  match param_str with
  | [] => Some st
  | char :: rest =>
      match last_looked_up (ComprehensiveLoggingFixer.current_param st) char
      with
      | None => None
      | Some _ => for_loop rest (LoggingParameterFixer.split_step char st)
      end
  end.

(** Lines 76-98. *)
Definition split_params_by_line (param_str : text) : option (list text) :=
  match param_str with
  | [] => Some []
  | _ :: _ =>
      match for_loop param_str ComprehensiveLoggingFixer.split_init with
      | Some st =>
          Some (ComprehensiveLoggingFixer.flush
                  (ComprehensiveLoggingFixer.current_param st)
                  (ComprehensiveLoggingFixer.param_list st))
      | None => None
      end
  end.

End IndexedSplitter.


(** ** Characters that a pattern can take *)

Module Classes.

(** Some character class of [r] takes the character [c]. *)
Fixpoint takes (r : regex) (c : ascii) : bool :=
  match r with
  | Eps | WordB => false
  | Chr p => p c
  | Seq a b | Alt a b => takes a c || takes b c
  | Star a | LazyStar a | Group _ a => takes a c
  end.

(** Some character class inside group [i] of [r] takes [c]. *)
Fixpoint group_takes (r : regex) (i : nat) (c : ascii) : bool :=
  match r with
  | Eps | WordB | Chr _ => false
  | Seq a b | Alt a b => group_takes a i c || group_takes b i c
  | Star a | LazyStar a => group_takes a i c
  | Group j a => (Nat.eqb i j && takes a c) || group_takes a i c
  end.

End Classes.

(** ** Shapes of texts used to state properties *)

Module Shapes.

(** Not empty, and no white space at either end. *)
Definition trimmed (p : text) : Prop :=
  p <> []
  /\ (forall c rest, p = c :: rest -> Py.isspace c = false)
  /\ (forall front c, p = front ++ [c] -> Py.isspace c = false).

Definition nonempty (p : text) : bool :=
  match p with [] => false | _ :: _ => true end.

(** [[p.strip() for p in s.split(',') if p.strip()]] *)
Definition comma_split (s : text) : list text :=
  List.filter nonempty (map Py.strip (Py.split ","%char s)).

(** None of the characters of [cs] occurs in [s]. *)
Definition free_of (cs : list ascii) (s : text) : Prop :=
  forall c, In c cs -> ~ In c s.

(** [s] ends in a line feed, or is empty. *)
Definition ends_lines (s : text) : bool :=
  match rev s with
  | [] => true
  | c :: _ => Ascii.eqb c newline
  end.

End Shapes.

(** ** Finding a call on a receiver *)

Module Calls.

(** [p in s] for texts *)
Fixpoint occurs (p s : text) : bool :=
  starts_with p s
  || match s with
     | [] => false
     | _ :: s' => occurs p s'
     end.

(** Some receiver is followed in [s] by one of the method names and an
    opening parenthesis. *)
Definition has_call (s : text) : bool :=
  existsb
    (fun recv =>
       existsb (fun method => occurs (recv ++ method ++ ["("%char]) s)
               ComprehensiveLoggingFixer.logging_methods)
    receivers.

End Calls.

(** ** [LogErrorFixer.process_file]

    Lines 107-135 of [fix_logerror_systematic.py], with the line that the
    fourth pattern of [fix_logerror_patterns] prints (lines 77-103). *)

Module LogErrorFiles.

Import IO LogErrorFixer Calls.

(** Line 79, the pieces set apart by spaces:
<<
  (...LogError\() ( [^,]+ ) ( ,\s*\w+:\s*[^,]+ )* ( ,\s* ) ( ex\b )
  ( [^)]*\) )
>> *)
Definition pattern4 : regex :=
  (prefix_re ~> Group 2 (Plus not_comma)
   ~> Star (Group 3 (Chr (chr_is ",") ~> Star ws ~> Plus word
                      ~> Chr (chr_is ":") ~> Star ws ~> Plus not_comma))
   ~> Group 4 (Chr (chr_is ",") ~> Star ws)
   ~> ex_word 5
   ~> Group 6 (Star (Chr (is_not [")"%char])) ~> Chr (chr_is ")")))%re.

(** [s.find(p)] *)
Fixpoint find (p s : text) : option nat :=
  if starts_with p s then Some 0
  else match s with
       | [] => None
       | _ :: s' =>
           match find p s' with Some i => Some (S i) | None => None end
       end.

(** The loop of lines 89-96 on [rest = line[j:]]: the value of [j + 1] at
    the [break], if the loop gets there. *)
Fixpoint closing (paren_count j : nat) (rest : text) : option nat :=
  match rest with
  | [] => None
  | c :: rest' =>
      if Ascii.eqb c "(" then closing (S paren_count) (S j) rest'
      else if Ascii.eqb c ")" then
        match paren_count with
        | 0 => Some (S j)
        | S n => closing n (S j) rest'
        end
      else closing paren_count (S j) rest'
  end.

(** Lines 80-101: whether the line is printed as a complex pattern. *)
Definition complex_pattern (line : text) : bool :=
  match search pattern4 line with
  | None => false
  | Some _ =>
      negb (starts_with (txt "//") (Py.strip line))
      && (occurs (txt ", ex") line && occurs (txt "LogError(") line)
      && match find (txt "LogError(") line with
         | None => false
         | Some start_idx =>
             let end_idx :=
               match closing 0 (start_idx + 9) (skipn (start_idx + 9) line)
               with
               | Some j => j
               | None => start_idx + 9
               end in
             let method_call :=
               firstn (end_idx - start_idx) (skipn start_idx line) in
             occurs ["{"%char] method_call && occurs ["}"%char] method_call
             && occurs (txt "', ") method_call
         end
  end.

(** The loop of line 24 from the line with index [i] on.  A line that one
    of the first three patterns rewrites is done; [re.sub] may raise for
    the third; any other line gets to the fourth pattern. *)
Fixpoint fix_lines_from (i : nat) (lines : list text)
  : io (list text * nat) :=
  match lines with
  | [] => ret ([], 0)
  | line :: rest =>
      match fix_one_line line with
      | None => raise
      | Some (l, changed) =>
          _ <- (if negb changed && complex_pattern line
                then print (ComplexPattern (i + 1) (Py.strip line))
                else ret tt) ;;
          fixed <- fix_lines_from (S i) rest ;;
          let (ls, n) := fixed : list text * nat in
          ret (l :: ls, if changed then S n else n)
      end
  end.

(** [fix_logerror_patterns] with its printing. *)
Definition fix_content (content : text) : io (text * nat) :=
  fixed <- fix_lines_from 0 (Py.split newline content) ;;
  let (lines, changes) := fixed : list text * nat in
  ret (Py.join [newline] lines, changes).

Definition process_file (filepath : string) : io bool :=
  try_except
    (content <- read_text filepath ;;
     fixed <- fix_content content ;;
     let (fixed_content, changes) := fixed : text * nat in
     if 0 <? changes then
       let backup_path := with_added_suffix filepath ".bak_logerror" in
       _ <- write_text backup_path content ;;
       _ <- write_text filepath fixed_content ;;
       _ <- print (Fixed changes filepath) ;;
       ret true
     else
       _ <- print (NoChanges filepath) ;;
       ret false)
    (_ <- print (Failed filepath) ;; ret false).

End LogErrorFiles.

(** ** Words for what a computation does to the world *)

Module Effects.

Import IO.

(** Nothing but the console output has changed. *)
Definition only_printed (w w' : world) : Prop :=
  files w' = files w /\ log w' = log w /\ writable w' = writable w
  /\ breaks w' = breaks w /\ linesep w' = linesep w
  /\ console w' = console w.

(** The console takes every line. *)
Definition accepts_all (w : world) : Prop := forall o, console w o = true.

(** What one [write_text] adds to the log of writes. *)
Definition write_event (w : world) (path : string) (content : text)
  : event :=
  if writable w path then
    match breaks w path with
    | Some _ => WriteBroke path
    | None => Wrote path (written_newlines (linesep w) content)
    end
  else WriteFailed path.

(** Whether the write goes through. *)
Definition written (w : world) (path : string) : bool :=
  writable w path && match breaks w path with Some _ => false | None => true end.

(** What a call of [process_file] that rewrites has done when it ends
    with [result]: the backup was attempted first, with [content]; the
    file was attempted only after the backup had been written; no other
    file has changed. *)
Definition rewritten (w w' : world) (result : option bool)
    (backup filepath : string) (content fixed : text) : Prop :=
  log w'
  = log w ++ write_event w backup content
      :: (if written w backup then [write_event w filepath fixed] else [])
  /\ (forall p, p <> filepath -> p <> backup ->
        files w' !! p = files w !! p)
  /\ (written w backup = true ->
      files w' !! backup = Some (written_newlines (linesep w) content))
  /\ (written w backup = false -> files w' !! filepath = files w !! filepath)
  /\ (result = Some true ->
      written w backup = true /\ written w filepath = true
      /\ files w' !! filepath = Some (written_newlines (linesep w) fixed)).

End Effects.

(** * Properties *)

(** Case analysis on membership in a list that is written out. *)
Ltac each_case H :=
  simpl in H;
  repeat match type of H with
         | _ \/ _ => destruct H as [H|H]
         | False => destruct H
         end;
  try subst.

(** ** Placeholder counts against argument counts *)

Section ArgumentCount.

Import ComprehensiveLoggingFixer.

(** C1 (ComprehensiveLoggingFixer): a call with two placeholders and one
    argument is rewritten all the same; the first placeholder takes the
    argument, the second stays, and the change is counted.  The claim asks
    for the call to be left as it was. *)
Theorem C1_rewritten_with_too_few_arguments :
  fix_logging_call (txt "_logger.LogInfo('A {a} B {b}', x)")
  = (txt "_logger.LogInfo($'A {x} B {b}')", 1).
Proof. vm_compute. reflexivity. Qed.

(** The sibling script has the guard of the claim: with more placeholders
    than parameters the line is returned as it was. *)
Lemma guard_keeps_line (line method : text) (m : Match) :
  search (LoggingParameterFixer.pattern method) line = Some m ->
  List.length (LoggingParameterFixer.split_params
                 (LoggingParameterFixer.param_str_of (grp m 3)))
  < List.length (findall1 placeholder_re (grp m 2)) ->
  LoggingParameterFixer.fix_logging_call line method = (line, false).
Proof.
  intros Hm Hlt. unfold LoggingParameterFixer.fix_logging_call.
  rewrite Hm.
  destruct (findall1 placeholder_re (grp m 2)) as [|p ps] eqn:Hp;
    [reflexivity|].
  destruct (Nat.leb_spec (List.length (p :: ps))
              (List.length (LoggingParameterFixer.split_params
                              (LoggingParameterFixer.param_str_of (grp m 3)))))
    as [Hle|_]; [lia|reflexivity].
Qed.

Example guard_on_two_placeholders_one_argument :
  LoggingParameterFixer.fix_line (txt "_logger.LogInfo('A {a} B {b}', x)")
  = (txt "_logger.LogInfo('A {a} B {b}', x)", 0).
Proof. vm_compute. reflexivity. Qed.

End ArgumentCount.

(** ** What a successful run of the matcher tells *)

Section MatcherFacts.

Context {R : Type}.

Implicit Types (r : regex) (s : text) (e : caps) (k : @cont R).

(** The continuation was reached on a suffix of the input, with the groups
    of the other patterns as they were. *)
Lemma run_inv r : forall prev s e k x,
  run r prev s e k = Some x ->
  exists prev' s' e' c,
    s = c ++ s' /\ k prev' s' e' = Some x
    /\ forall i, ~ In i (group_ids r) -> group e' i = group e i.
Proof.
  induction r as [|p|a IHa b IHb|a IHa b IHb|a IHa|a IHa|i a IHa|];
    intros prev s e k x H; simpl in H.
  - exists prev, s, e, []. auto.
  - destruct s as [|c s1]; [discriminate|].
    destruct (p c); [|discriminate].
    exists (Some c), s1, e, [c]. auto.
  - apply IHa in H as (p1 & s1 & e1 & c1 & -> & H & G1).
    apply IHb in H as (p2 & s2 & e2 & c2 & -> & H & G2).
    exists p2, s2, e2, (c1 ++ c2). rewrite <- app_assoc.
    repeat split; auto. intros i Hi. simpl in Hi. rewrite in_app_iff in Hi.
    rewrite G2, G1; auto.
  - destruct (run a prev s e k) as [y|] eqn:Ha.
    + injection H as ->. apply IHa in Ha as (p1 & s1 & e1 & c1 & -> & H & G1).
      exists p1, s1, e1, c1. repeat split; auto.
      intros i Hi. simpl in Hi. rewrite in_app_iff in Hi. auto.
    + apply IHb in H as (p1 & s1 & e1 & c1 & -> & H & G1).
      exists p1, s1, e1, c1. repeat split; auto.
      intros i Hi. simpl in Hi. rewrite in_app_iff in Hi. auto.
  - remember (List.length s) as n eqn:Hn. clear Hn.
    revert prev s e H. induction n as [|n IHn]; intros prev s e H.
    + exists prev, s, e, []. auto.
    + match type of H with
      | match ?t with _ => _ end = _ => destruct t as [y|] eqn:Ha
      end.
      * injection H as ->.
        apply IHa in Ha as (p1 & s1 & e1 & c1 & -> & H & G1).
        destruct (List.length s1 <? List.length (c1 ++ s1)); [|discriminate].
        apply IHn in H as (p2 & s2 & e2 & c2 & -> & H & G2).
        exists p2, s2, e2, (c1 ++ c2). rewrite <- app_assoc.
        repeat split; auto. intros i Hi. rewrite G2, G1; auto.
      * exists prev, s, e, []. auto.
  - remember (List.length s) as n eqn:Hn. clear Hn.
    revert prev s e H. induction n as [|n IHn]; intros prev s e H.
    + destruct (k prev s e) as [y|] eqn:Hk; [|discriminate].
      injection H as ->. exists prev, s, e, []. auto.
    + destruct (k prev s e) as [y|] eqn:Hk.
      * injection H as ->. exists prev, s, e, []. auto.
      * apply IHa in H as (p1 & s1 & e1 & c1 & -> & H & G1).
        destruct (List.length s1 <? List.length (c1 ++ s1)); [|discriminate].
        apply IHn in H as (p2 & s2 & e2 & c2 & -> & H & G2).
        exists p2, s2, e2, (c1 ++ c2). rewrite <- app_assoc.
        repeat split; auto. intros j Hj. rewrite G2, G1; auto.
  - apply IHa in H as (p1 & s1 & e1 & c1 & -> & H & G1).
    exists p1, s1,
      ((i, firstn (List.length (c1 ++ s1) - List.length s1) (c1 ++ s1))
         :: e1), c1.
    repeat split; auto.
    intros j Hj. simpl in Hj. simpl.
    destruct (Nat.eqb_spec j i) as [->|Hne]; [tauto|]. apply G1. tauto.
  - destruct (at_boundary prev s); [|discriminate].
    exists prev, s, e, []. auto.
Qed.

(** A literal matches exactly its own text. *)
Lemma run_Lit (l : text) : forall prev s e k x,
  run (Lit l) prev s e k = Some x ->
  exists prev' s', s = l ++ s' /\ k prev' s' e = Some x.
Proof.
  induction l as [|c l IH]; intros prev s e k x H; simpl in H.
  - exists prev, s. auto.
  - destruct s as [|c' s1]; [discriminate|].
    unfold chr_is in H. destruct (Ascii.eqb_spec c c') as [->|]; [|discriminate].
    apply IH in H as (p & s' & -> & H). exists p, s'. auto.
Qed.

End MatcherFacts.

Lemma firstn_consumed (c s : text) :
  firstn (List.length (c ++ s) - List.length s) (c ++ s) = c.
Proof.
  rewrite length_app, Nat.add_sub.
  rewrite firstn_app, Nat.sub_diag, firstn_all. simpl. apply app_nil_r.
Qed.

(** Every pattern of the scripts starts with [call_prefix]: a match starts
    with a receiver, the method name and an opening parenthesis, and that
    text is group 1. *)
Lemma match_here_call_prefix (method : text) (b : regex) prev s rest e :
  ~ In 1 (group_ids b) ->
  match_here (Seq (call_prefix method) b) prev s = Some (rest, e) ->
  exists recv s3,
    In recv receivers
    /\ s = recv ++ method ++ "("%char :: s3
    /\ group e 1 = Some (recv ++ method ++ ["("%char]).
Proof.
  intros Hb H. unfold match_here, call_prefix, receiver_re in H.
  cbn [run] in H.
  assert (Hrecv : exists recv p1 s1,
             In recv receivers /\ s = recv ++ s1
             /\ run (Lit method) p1 s1 []
                  (fun p2 s2 e2 =>
                     run (Chr (chr_is "(")) p2 s2 e2
                       (fun p3 s3 e3 =>
                          run b p3 s3
                            ((1, firstn (List.length s - List.length s3) s)
                               :: e3)
                            (fun _ s' e' => Some (s', e'))))
                = Some (rest, e)).
  { match type of H with
    | match ?t with _ => _ end = _ => destruct t as [y|] eqn:H1
    end.
    - injection H as ->. apply run_Lit in H1 as (p1 & s1 & -> & H1).
      exists (txt "TradingLogOrchestrator.Instance."), p1, s1.
      repeat split; auto. left; reflexivity.
    - apply run_Lit in H as (p1 & s1 & -> & H).
      exists (txt "_logger."), p1, s1.
      repeat split; auto. right; left; reflexivity. }
  destruct Hrecv as (recv & p1 & s1 & Hin & -> & H1).
  apply run_Lit in H1 as (p2 & s2 & -> & H2). cbn [run] in H2.
  destruct s2 as [|c s3]; [discriminate|].
  unfold chr_is in H2.
  destruct (Ascii.eqb_spec "("%char c) as [<-|]; [|discriminate].
  exists recv, s3. repeat split; auto.
  apply run_inv in H2 as (p' & s' & e' & c' & _ & Hk & G).
  injection Hk as -> ->. rewrite (G 1 Hb). cbn [group Nat.eqb].
  f_equal.
  replace (recv ++ method ++ "("%char :: s3)
    with ((recv ++ method ++ ["("%char]) ++ s3)
    by (rewrite <- !app_assoc; reflexivity).
  apply firstn_consumed.
Qed.

Lemma match_here_suffix r prev s rest e :
  match_here r prev s = Some (rest, e) -> exists c, s = c ++ rest.
Proof.
  intros H. apply run_inv in H as (p' & s' & e' & c & -> & Hk & _).
  injection Hk as -> ->. eauto.
Qed.

(** [re.search] reports a match of the pattern at some position, and
    splits the text around it. *)
Lemma search_from_inv r : forall s prev pre m,
  search_from r prev pre s = Some m ->
  exists skipped prev',
    before m = rev pre ++ skipped
    /\ s = skipped ++ whole m ++ after m
    /\ match_here r prev' (whole m ++ after m) = Some (after m, groups m).
Proof.
  induction s as [|c s IH]; intros prev pre m H; cbn [search_from] in H.
  - destruct (match_here r prev []) as [[rest e]|] eqn:Hm; [|discriminate].
    injection H as <-. simpl.
    destruct (match_here_suffix _ _ _ _ _ Hm) as (c & Hc).
    symmetry in Hc. apply app_eq_nil in Hc as [-> ->].
    exists [], prev. rewrite app_nil_r. auto.
  - destruct (match_here r prev (c :: s)) as [[rest e]|] eqn:Hm.
    + destruct (match_here_suffix _ _ _ _ _ Hm) as (w & Hw).
      rewrite Hw, firstn_consumed in H. rewrite Hw in Hm. rewrite Hw.
      injection H as <-. cbn [before whole after groups].
      exists [], prev. rewrite app_nil_r. auto.
    + apply IH in H as (sk & p' & Hb & -> & Hm').
      exists (c :: sk), p'. repeat split; auto.
      rewrite Hb. simpl. rewrite <- app_assoc. reflexivity.
Qed.

(** The same for every match that [re.sub] and [re.findall] visit. *)
Lemma scan_matches r : forall n prev s ms rest m,
  scan n r prev s = (ms, rest) -> In m ms ->
  exists prev', match_here r prev' (whole m ++ after m)
                = Some (after m, groups m).
Proof.
  induction n as [|n IH]; intros prev s ms rest m H Hin; simpl in H.
  - injection H as <- <-. destruct Hin.
  - destruct (search_from r prev [] s) as [m0|] eqn:Hs.
    2:{ injection H as <- <-. destruct Hin. }
    apply search_from_inv in Hs as (sk & p0 & _ & _ & Hm0).
    destruct (whole m0) as [|w0 ws] eqn:Hw.
    + destruct (after m0) as [|c rest0] eqn:Ha.
      * injection H as <- <-. destruct Hin as [<-|[]].
        rewrite Hw, Ha. eauto.
      * destruct (scan n r (Some c) rest0) as [ms' tl_] eqn:Hsc.
        injection H as <- <-. destruct Hin as [<-|Hin].
        { rewrite Hw, Ha. eauto. }
        destruct ms' as [|m' ms'']; [destruct Hin|].
        destruct Hin as [<-|Hin]; simpl.
        { eapply (IH _ _ _ _ m' Hsc). left; reflexivity. }
        { eapply (IH _ _ _ _ m Hsc). right; assumption. }
    + destruct (scan n r (last_char prev (before m0 ++ w0 :: ws))
                  (after m0)) as [ms' tl_] eqn:Hsc.
      injection H as <- <-. destruct Hin as [<-|Hin].
      * rewrite Hw. eauto.
      * eapply IH; eauto.
Qed.

(** A pattern that matches nowhere leaves the text to [re.sub] as it is. *)
Lemma search_from_nowhere r : forall s prev pre,
  (forall a b p, s = a ++ b -> match_here r p b = None) ->
  search_from r prev pre s = None.
Proof.
  induction s as [|c s IH]; intros prev pre H; simpl.
  - rewrite (H [] [] prev eq_refl). reflexivity.
  - rewrite (H [] (c :: s) prev eq_refl). apply IH.
    intros a b p ->. apply (H (c :: a) b p). reflexivity.
Qed.

Lemma finditer_nowhere r s :
  (forall a b p, s = a ++ b -> match_here r p b = None) ->
  finditer r s = ([], s).
Proof.
  intros H. unfold finditer. simpl.
  rewrite (search_from_nowhere r s None [] H). reflexivity.
Qed.

(** ** Calls that are already interpolated *)

Section Idempotence.

Import ComprehensiveLoggingFixer.

(** A counted replacement is group 1 followed by the dollar sign. *)
Lemma replacer_shape (m : Match) :
  snd (replacer m) = true ->
  exists t, fst (replacer m) = grp m 1 ++ "$"%char :: t.
Proof.
  unfold replacer. destruct (findall1 placeholder_re (grp m 2)) as [|p ps].
  - discriminate.
  - destruct (pop_exception _) as [params' [ex|]]; intros _; simpl; eauto.
Qed.

(** No pattern of the script matches at a call whose first argument starts
    with the dollar sign. *)
Lemma interpolated_call_not_matched (recv method method' : text) :
  In recv receivers -> In method logging_methods ->
  In method' logging_methods ->
  forall prev t,
    match_here (pattern method') prev
      (recv ++ method ++ "("%char :: "$"%char :: t) = None.
Proof.
  intros Hr Hm Hm' prev t.
  each_case Hr; each_case Hm; each_case Hm'; vm_compute; reflexivity.
Qed.

(** C3, counterexample: on a call whose argument holds another call of the
    same method, the second pass still rewrites. *)
Lemma C3_second_pass_rewrites :
  snd (fix_logging_call
         (fst (fix_logging_call
                 (txt "_logger.LogInfo('{x}', f(_logger.LogInfo('{y}', z)))"))))
  <> 0.
Proof. vm_compute. discriminate. Qed.

(** C3, amended: every replacement that the engine counts starts with the
    receiver, the method name, the parenthesis and the dollar sign, and no
    pattern of the engine matches at the start of such a text, whatever
    follows it: a rewritten call is not a candidate again at its own call
    site. *)
Theorem C3_rewritten_call_not_matched_again
    (content method method' : text) (m : Match) :
  In method logging_methods ->
  In m (fst (finditer (pattern method) content)) ->
  snd (replacer m) = true ->
  In method' logging_methods ->
  forall prev rest,
    match_here (pattern method') prev (fst (replacer m) ++ rest) = None.
Proof.
  intros Hmeth Hin Hcount Hmeth' prev rest.
  unfold finditer in Hin.
  destruct (scan _ _ _ _) as [ms tl_] eqn:Hscan. simpl in Hin.
  destruct (scan_matches _ _ _ _ _ _ m Hscan Hin) as (p' & Hm).
  apply match_here_call_prefix in Hm as (recv & s3 & Hrecv & _ & Hg).
  2:{ simpl. intuition discriminate. }
  destruct (replacer_shape m Hcount) as (t & ->).
  unfold grp. rewrite Hg. rewrite <- !app_assoc. simpl.
  apply interpolated_call_not_matched; assumption.
Qed.

(** The theorem at the call of Example 1. *)
Lemma C3_rewritten_call_not_matched_again_witness :
  let content := txt "_logger.LogInfo('Value is {x}', x, ex)" in
  let m := {| before := [];
              whole := content;
              groups := [(4, txt ")"); (3, txt ", x, ex");
                         (2, txt "'Value is {x}'");
                         (1, txt "_logger.LogInfo(")];
              after := [] |} in
  In m (fst (finditer (pattern (txt "LogInfo")) content))
  /\ snd (replacer m) = true
  /\ match_here (pattern (txt "LogInfo")) None (fst (replacer m) ++ [])
     = None.
Proof.
  intros content m.
  assert (Hin : In m (fst (finditer (pattern (txt "LogInfo")) content)))
    by (vm_compute; left; reflexivity).
  assert (Hcount : snd (replacer m) = true) by (vm_compute; reflexivity).
  split; [exact Hin | split; [exact Hcount |]].
  apply (C3_rewritten_call_not_matched_again
           content (txt "LogInfo") (txt "LogInfo") m).
  - vm_compute. right; left; reflexivity.
  - exact Hin.
  - exact Hcount.
  - vm_compute. right; left; reflexivity.
Defined.

End Idempotence.

(** ** Calls without a receiver *)

Section Receivers.

(** Whatever follows [call_prefix] in a pattern, [re.search] finds the
    match at a receiver followed by the method name and a parenthesis. *)
Lemma search_call_prefix (method : text) (b : regex) (line : text)
    (m : Match) :
  ~ In 1 (group_ids b) ->
  search (Seq (call_prefix method) b) line = Some m ->
  exists recv t,
    In recv receivers /\ line = before m ++ recv ++ method ++ "("%char :: t.
Proof.
  intros Hb H. unfold search in H.
  apply search_from_inv in H as (sk & p' & Hbefore & -> & Hm).
  simpl in Hbefore. subst sk.
  apply match_here_call_prefix in Hm as (recv & t & Hin & -> & _); eauto.
Qed.

Lemma candidate_has_receiver_comprehensive (method line : text) (m : Match) :
  search (ComprehensiveLoggingFixer.pattern method) line = Some m ->
  exists recv t,
    In recv receivers /\ line = before m ++ recv ++ method ++ "("%char :: t.
Proof. apply search_call_prefix. simpl. intuition discriminate. Qed.

Lemma candidate_has_receiver_parameter (method line : text) (m : Match) :
  search (LoggingParameterFixer.pattern method) line = Some m ->
  exists recv t,
    In recv receivers /\ line = before m ++ recv ++ method ++ "("%char :: t.
Proof. apply search_call_prefix. simpl. intuition discriminate. Qed.

Lemma candidate_has_receiver_systematic (r : regex) (line : text)
    (m : Match) :
  In r [LogErrorFixer.pattern1; LogErrorFixer.pattern2;
        LogErrorFixer.pattern3] ->
  search r line = Some m ->
  exists recv t,
    In recv receivers
    /\ line = before m ++ recv ++ txt "LogError" ++ "("%char :: t.
Proof.
  intros Hr. each_case Hr; apply search_call_prefix; simpl;
    intuition discriminate.
Qed.

(** A text in which no receiver is followed by a method name and a
    parenthesis goes through [fix_logging_call] untouched. *)
Lemma no_receiver_no_change (content : text) :
  (forall recv method a b,
      In recv receivers -> In method ComprehensiveLoggingFixer.logging_methods ->
      content <> a ++ recv ++ method ++ "("%char :: b) ->
  ComprehensiveLoggingFixer.fix_logging_call content = (content, 0).
Proof.
  intros H. unfold ComprehensiveLoggingFixer.fix_logging_call.
  assert (Hstep : forall method n,
             In method ComprehensiveLoggingFixer.logging_methods ->
             ComprehensiveLoggingFixer.fix_method method (content, n)
             = (content, n)).
  { intros method n Hin. unfold ComprehensiveLoggingFixer.fix_method.
    rewrite finditer_nowhere.
    - simpl. rewrite Nat.add_0_r. reflexivity.
    - intros a b p -> .
      destruct (match_here (ComprehensiveLoggingFixer.pattern method) p b)
        as [[rest e]|] eqn:Hm; [|reflexivity].
      apply match_here_call_prefix in Hm as (recv & t & Hr & -> & _).
      + exfalso. eapply H; eauto.
      + simpl. intuition discriminate. }
  unfold ComprehensiveLoggingFixer.logging_methods in *.
  cbn [fold_left]. rewrite !Hstep; simpl; auto 10.
Qed.

(** The bare call of the claim is left alone by the three scripts. *)
Example bare_call_left_alone :
  ComprehensiveLoggingFixer.fix_logging_call (txt "LogError('A {a}', a)")
  = (txt "LogError('A {a}', a)", 0)
  /\ LoggingParameterFixer.fix_line (txt "LogError('A {a}', a)")
     = (txt "LogError('A {a}', a)", 0)
  /\ LogErrorFixer.fix_logerror_patterns (txt "LogError('A {a}', a, ex)")
     = Some (txt "LogError('A {a}', a, ex)", 0).
Proof. vm_compute. auto. Qed.

(** C9 (LoggingParameterFixer): the bare call is no candidate, but it does
    not keep its text when a call with a receiver stands on the same line:
    the line becomes the rewritten call alone, and the text before and
    after the match is gone. *)
Theorem C9_bare_call_text_dropped :
  LoggingParameterFixer.fix_line
    (txt "LogError('A {a}', a); _logger.LogError('B {b}', b); // both")
  = (txt "_logger.LogError($'B {b}');", 1).
Proof. vm_compute. reflexivity. Qed.

(** The first pattern of LogErrorFixer loses the rest of the line in the
    same way, and ComprehensiveLoggingFixer keeps it. *)
Example bare_call_text_in_the_other_scripts :
  LogErrorFixer.fix_logerror_patterns
    (txt "LogError('A {a}', a, ex); _logger.LogError('B {b}', b, ex);")
  = Some (txt "_logger.LogError($'B {b}', ex", 1)
  /\ ComprehensiveLoggingFixer.fix_logging_call
       (txt "LogError('A {a}', a); _logger.LogError('B {b}', b); // both")
     = (txt "LogError('A {a}', a); _logger.LogError($'B {b}'); // both", 1).
Proof. vm_compute. auto. Qed.

End Receivers.

(** ** The parameter splitter *)

Section Splitter.

Import ComprehensiveLoggingFixer.

(** The two scripts split alike: looking at the character before the quote
    in [param_str] or at the last character of [current_param] gives the
    same answer, because a boundary comma is no backslash. *)
Lemma split_step_agree prev char st :
  not_escaped prev = LoggingParameterFixer.not_escaped_last (current_param st) ->
  split_step prev char st = LoggingParameterFixer.split_step char st.
Proof.
  unfold split_step, LoggingParameterFixer.split_step.
  intros ->. reflexivity.
Qed.

Lemma split_step_keeps_agreeing prev char st :
  not_escaped (Some char)
  = LoggingParameterFixer.not_escaped_last (current_param (split_step prev char st)).
Proof.
  unfold split_step, not_escaped, LoggingParameterFixer.not_escaped_last.
  repeat match goal with
         | |- context [if ?b then _ else _] => destruct b eqn:?
         end;
    cbn [current_param]; rewrite ?rev_unit; try reflexivity.
  cbn [rev].
  repeat match goal with
         | H : _ && _ = true |- _ => apply andb_true_iff in H as [H ?]
         end.
  match goal with
  | H : Ascii.eqb char ","%char = true |- _ =>
      apply Ascii.eqb_eq in H; subst char
  end.
  reflexivity.
Qed.

Lemma split_loop_agree : forall param_str prev st,
  not_escaped prev = LoggingParameterFixer.not_escaped_last (current_param st) ->
  split_loop prev param_str st
  = LoggingParameterFixer.split_loop param_str st.
Proof.
  unfold LoggingParameterFixer.split_loop.
  induction param_str as [|c s IH]; intros prev st H; simpl.
  - reflexivity.
  - rewrite <- (split_step_agree prev c st H).
    apply IH, split_step_keeps_agreeing.
Qed.

Lemma split_params_agree (param_str : text) :
  LoggingParameterFixer.split_params param_str = split_params param_str.
Proof.
  unfold LoggingParameterFixer.split_params, split_params.
  destruct param_str as [|c s]; [reflexivity|].
  rewrite <- (split_loop_agree _ None); reflexivity.
Qed.






(** The splitter on its own keeps a nested call in one piece. *)
Example nested_call_kept_by_the_splitter :
  split_params (txt "Compute(a, b), ex") = [txt "Compute(a, b)"; txt "ex"].
Proof. vm_compute. reflexivity. Qed.

(** After a literal that ends in an escaped backslash the splitter takes
    the closing quote for an escaped one, and then cuts the next literal
    at its comma. *)
Example boundary_inside_a_literal :
  split_params (txt "'a\\', 'b,c'") = [txt "'a\\', 'b"; txt "c'"].
Proof. vm_compute. reflexivity. Qed.

(** C2: the call of Example 3.  The pattern takes the parameters up to the
    first closing parenthesis only, so the nested call is cut after [b]:
    the closing parenthesis of [Compute] ends the rewritten call and the
    exception argument is left behind it (ComprehensiveLoggingFixer) or
    dropped with the rest of the line (LoggingParameterFixer).  The claim
    asks for [_logger.LogInfo($'Nested {Compute(a, b)}', ex)]. *)
Theorem C2_nested_call_cut_at_first_parenthesis :
  fix_logging_call (txt "_logger.LogInfo('Nested {v}', Compute(a, b), ex)")
  = (txt "_logger.LogInfo($'Nested {Compute(a, b}'), ex)", 1)
  /\ LoggingParameterFixer.fix_line
       (txt "_logger.LogInfo('Nested {v}', Compute(a, b), ex)")
     = (txt "_logger.LogInfo($'Nested {Compute(a, b}')", 1).
Proof. vm_compute. auto. Qed.




End Splitter.

(** ** The exception argument and the rewritten text *)

Section Replacement.

Import ComprehensiveLoggingFixer.




(** With a placeholder in the template the replacement is always counted,
    whatever the parameters are. *)
Lemma replacer_always_counts (m : Match) :
  findall1 placeholder_re (grp m 2) <> [] -> snd (replacer m) = true.
Proof.
  intros H. unfold replacer.
  destruct (findall1 placeholder_re (grp m 2)); [congruence|].
  destruct (pop_exception _) as [params' [ex|]]; reflexivity.
Qed.




(** The call of Example 1 is rewritten as the specification says, for every
    receiver and method name. *)
Example example_1_is_rewritten (recv method : text) :
  In recv receivers -> In method logging_methods ->
  fix_logging_call (recv ++ method ++ txt "('Value is {x}', x, ex)")
  = (recv ++ method ++ txt "($'Value is {x}', ex)", 1).
Proof.
  intros Hr Hm. each_case Hr; each_case Hm; vm_compute; reflexivity.
Qed.

(** C7: a call with one placeholder, one bound argument and a trailing
    exception argument, where the bound argument is itself a call.  The
    claim asks for [_logger.LogInfo($'Value is {f(y)}', ex)]: the
    interpolation marker, the substituted template, a comma with the
    exception argument and the original closing parenthesis.  The pattern
    takes the parameters up to the first closing parenthesis only, so the
    template is closed inside the argument, the exception argument is not
    behind the template and the closing parenthesis of the call is not the
    one of the rewritten text. *)
Theorem C7_call_as_bound_argument :
  fix_logging_call (txt "_logger.LogInfo('Value is {x}', f(y), ex)")
  = (txt "_logger.LogInfo($'Value is {f(y}'), ex)", 1)
  /\ fst (fix_logging_call (txt "_logger.LogInfo('Value is {x}', f(y), ex)"))
     <> txt "_logger.LogInfo($'Value is {f(y)}', ex)".
Proof. vm_compute. split; [reflexivity|discriminate]. Qed.

End Replacement.

(** ** A placeholder name that occurs twice *)

Section RepeatedName.

Import ComprehensiveLoggingFixer.

Lemma text_eqb_eq : forall a b : text, text_eqb a b = true <-> a = b.
Proof.
  induction a as [|x a IH]; intros [|y b]; simpl; split;
    try congruence; try reflexivity.
  - intros H. apply andb_true_iff in H as [Hx Hab].
    apply Ascii.eqb_eq in Hx. apply IH in Hab. congruence.
  - intros [= -> ->]. apply andb_true_iff. split.
    + apply Ascii.eqb_refl.
    + apply IH. reflexivity.
Qed.

Lemma starts_with_app (old rest : text) : starts_with old (old ++ rest) = true.
Proof.
  induction old as [|c old IH]; simpl; [reflexivity|].
  rewrite Ascii.eqb_refl. exact IH.
Qed.

Lemma replace_go_skip (old new : text) : forall d rest,
  Py.replace_go old new (List.length d) (d ++ rest)
  = Py.replace_go old new 0 rest.
Proof. induction d as [|c d IH]; intros rest; simpl; auto. Qed.

(** At an occurrence the new text is written and the scan goes on behind
    the occurrence. *)
Lemma replace_go_at_cons (c : ascii) (o new rest : text) :
  Py.replace_go (c :: o) new 0 ((c :: o) ++ rest)
  = new ++ Py.replace_go (c :: o) new 0 rest.
Proof.
  pose proof (starts_with_app (c :: o) rest) as Hs.
  cbn [app] in *. cbn [Py.replace_go]. rewrite Hs. f_equal.
  cbn [List.length]. rewrite Nat.sub_succ, Nat.sub_0_r.
  apply replace_go_skip.
Qed.

Lemma replace_go_at (x new rest : text) :
  Py.replace_go (Py.braces x) new 0 (Py.braces x ++ rest)
  = new ++ Py.replace_go (Py.braces x) new 0 rest.
Proof. apply replace_go_at_cons. Qed.

(** Text without an opening brace is copied. *)
Lemma replace_go_pass (x new : text) : forall a rest,
  ~ In "{"%char a ->
  Py.replace_go (Py.braces x) new 0 (a ++ rest)
  = a ++ Py.replace_go (Py.braces x) new 0 rest.
Proof.
  induction a as [|c a IH]; intros rest Ha; [reflexivity|].
  cbn [app Py.replace_go]. unfold Py.braces at 1. cbn [starts_with].
  destruct (Ascii.eqb_spec "{"%char c) as [<-|_].
  - exfalso. apply Ha. left; reflexivity.
  - cbn [andb]. f_equal. apply IH. intros H. apply Ha. right; exact H.
Qed.

Lemma starts_with_other_name : forall x v rest,
  ~ In "}"%char x -> ~ In "}"%char v -> v <> x ->
  starts_with (x ++ ["}"%char]) (v ++ "}"%char :: rest) = false.
Proof.
  induction x as [|c x IH]; intros [|d v] rest Hx Hv Hne;
    cbn [app starts_with].
  - congruence.
  - destruct (Ascii.eqb_spec "}"%char d) as [<-|_]; [|reflexivity].
    exfalso. apply Hv. left; reflexivity.
  - destruct (Ascii.eqb_spec c "}"%char) as [->|_]; [|reflexivity].
    exfalso. apply Hx. left; reflexivity.
  - destruct (Ascii.eqb_spec c d) as [->|_]; [|reflexivity].
    cbn [andb]. apply IH.
    + intros H. apply Hx. right; exact H.
    + intros H. apply Hv. right; exact H.
    + congruence.
Qed.

(** A placeholder with another name is copied. *)
Lemma replace_go_pass_braces (x v new rest : text) :
  ~ In "}"%char x -> ~ In "{"%char v -> ~ In "}"%char v -> v <> x ->
  Py.replace_go (Py.braces x) new 0 (Py.braces v ++ rest)
  = Py.braces v ++ Py.replace_go (Py.braces x) new 0 rest.
Proof.
  intros Hx Hv1 Hv2 Hne.
  assert (E : forall t, Py.braces v ++ t = "{"%char :: v ++ "}"%char :: t).
  { intros t. unfold Py.braces. cbn [app]. rewrite <- app_assoc.
    reflexivity. }
  rewrite !E.
  assert (Hgo : forall t,
             Py.replace_go (Py.braces x) new 0 ("}"%char :: t)
             = "}"%char :: Py.replace_go (Py.braces x) new 0 t)
    by reflexivity.
  assert (Hstart : starts_with (Py.braces x) ("{"%char :: v ++ "}"%char :: rest)
                   = false).
  { unfold Py.braces. cbn [starts_with]. rewrite Ascii.eqb_refl.
    cbn [andb]. apply starts_with_other_name; assumption. }
  cbn [Py.replace_go]. rewrite Hstart. f_equal.
  rewrite replace_go_pass by exact Hv1. rewrite Hgo. reflexivity.
Qed.

Lemma replace_braces (x new s : text) :
  Py.replace (Py.braces x) new s = Py.replace_go (Py.braces x) new 0 s.
Proof. reflexivity. Qed.

(** The template with the name [x] at two places, seen by one
    [str.replace]. *)
Lemma replace_two_occurrences (a b c x new : text) :
  ~ In "{"%char a -> ~ In "{"%char b ->
  Py.replace (Py.braces x) new c = c ->
  Py.replace (Py.braces x) new (a ++ Py.braces x ++ b ++ Py.braces x ++ c)
  = a ++ new ++ b ++ new ++ c.
Proof.
  intros Ha Hb Hc. rewrite replace_braces in *.
  rewrite replace_go_pass, replace_go_at, replace_go_pass, replace_go_at, Hc
    by assumption.
  reflexivity.
Qed.

Lemma replace_two_other_names (a b c x v new : text) :
  ~ In "{"%char a -> ~ In "{"%char b ->
  Py.replace (Py.braces x) new c = c ->
  ~ In "}"%char x -> ~ In "{"%char v -> ~ In "}"%char v -> v <> x ->
  Py.replace (Py.braces x) new (a ++ Py.braces v ++ b ++ Py.braces v ++ c)
  = a ++ Py.braces v ++ b ++ Py.braces v ++ c.
Proof.
  intros Ha Hb Hc Hx Hv1 Hv2 Hne. rewrite replace_braces in *.
  rewrite replace_go_pass, replace_go_pass_braces, replace_go_pass,
    replace_go_pass_braces, Hc by assumption.
  reflexivity.
Qed.

(** *** What [re.findall] sees in such a template *)

(** The placeholder pattern starts with an opening brace, and what comes
    before the text plays no part. *)
Lemma placeholder_here_brace prev s :
  match_here placeholder_re prev s
  = match s with
    | c :: s1 =>
        if Ascii.eqb "{"%char c
        then match_here placeholder_re None ("{"%char :: s1)
        else None
    | [] => None
    end.
Proof.
  destruct s as [|c s1]; [reflexivity|].
  unfold match_here, placeholder_re. cbn [run]. unfold chr_is.
  destruct (Ascii.eqb_spec "{"%char c) as [<-|_]; [|reflexivity].
  rewrite Ascii.eqb_refl. reflexivity.
Qed.

Lemma placeholder_here_prev prev s :
  match_here placeholder_re prev s = match_here placeholder_re None s.
Proof. rewrite (placeholder_here_brace prev), (placeholder_here_brace None). reflexivity. Qed.

(** A greedy repetition of a character class runs to the end of the
    characters of the class when what follows then matches. *)
Lemma star_class_greedy {R : Type} (q : ascii -> bool) (k : @cont R) (y : R) :
  forall x prev s' e,
    (forall c, In c x -> q c = true) ->
    match s' with c :: _ => q c = false | [] => True end ->
    k (last_char prev x) s' e = Some y ->
    run (Star (Chr q)) prev (x ++ s') e k = Some y.
Proof.
  induction x as [|c x IH]; intros prev s' e Hx Hs Hk.
  - cbn [app]. cbn [last_char rev] in Hk.
    destruct s' as [|c s1]; cbn [run List.length]; [exact Hk|].
    rewrite Hs, Hk. reflexivity.
  - specialize (IH (Some c) s' e).
    cbn [app]. cbn [run List.length]. rewrite (Hx c) by (left; reflexivity).
    rewrite (proj2 (Nat.ltb_lt _ _) (Nat.lt_succ_diag_r _)).
    cbn [run] in IH. rewrite IH; auto.
    + intros c' Hc'. apply Hx. right; exact Hc'.
    + replace (last_char (Some c) x) with (last_char prev (c :: x)); auto.
      unfold last_char. cbn [rev].
      destruct (rev x) as [|z zs] eqn:Hr; reflexivity.
Qed.

(** At a placeholder the pattern matches the placeholder and captures its
    name. *)
Lemma placeholder_here_match (x rest : text) prev :
  x <> [] -> ~ In "}"%char x ->
  match_here placeholder_re prev (Py.braces x ++ rest)
  = Some (rest, [(1, x)]).
Proof.
  intros Hne Hx. destruct x as [|c x]; [congruence|].
  assert (Hq : forall d, In d (c :: x) -> is_not ["}"%char] d = true).
  { intros d Hd. unfold is_not. cbn [existsb].
    destruct (Ascii.eqb_spec d "}"%char) as [->|_]; [contradiction|].
    reflexivity. }
  unfold match_here, placeholder_re, Plus, Py.braces.
  cbn [app run]. unfold chr_is at 1. rewrite Ascii.eqb_refl.
  rewrite (Hq c) by (left; reflexivity).
  rewrite <- app_assoc. cbn [app].
  apply star_class_greedy.
  - intros d Hd. apply Hq. right; exact Hd.
  - reflexivity.
  - cbn [run]. unfold chr_is. rewrite Ascii.eqb_refl.
    change (c :: x ++ "}"%char :: rest) with ((c :: x) ++ "}"%char :: rest).
    rewrite (firstn_consumed (c :: x) ("}"%char :: rest)). reflexivity.
Qed.

(** A match of the placeholder pattern takes at least the brace. *)
Lemma placeholder_here_shorter prev s rest e :
  match_here placeholder_re prev s = Some (rest, e) ->
  List.length rest < List.length s.
Proof.
  rewrite placeholder_here_brace. destruct s as [|c s1]; [discriminate|].
  destruct (Ascii.eqb "{"%char c); [|discriminate].
  change (match_here placeholder_re None ("{"%char :: s1))
    with (run (Seq (Group 1 (Plus (Chr (is_not ["}"%char]))))
                   (Chr (chr_is "}"%char)))
              (Some "{"%char) s1 [] (fun _ s' e' => Some (s', e'))).
  intros H.
  apply run_inv in H as (p' & s' & e' & w & -> & Hk & _).
  injection Hk as -> ->. cbn [List.length]. rewrite length_app. lia.
Qed.

Lemma search_placeholder_prev s prev pre :
  search_from placeholder_re prev pre s
  = search_from placeholder_re None pre s.
Proof.
  destruct s as [|c s]; cbn [search_from];
    rewrite (placeholder_here_prev prev); reflexivity.
Qed.

(** [re.search] walks over text without an opening brace. *)
Lemma search_placeholder_skip : forall a prev pre s,
  ~ In "{"%char a ->
  search_from placeholder_re prev pre (a ++ s)
  = search_from placeholder_re None (rev a ++ pre) s.
Proof.
  induction a as [|c a IH]; intros prev pre s Ha.
  - apply search_placeholder_prev.
  - cbn [app search_from]. rewrite placeholder_here_brace.
    destruct (Ascii.eqb_spec "{"%char c) as [<-|_].
    + exfalso. apply Ha. left; reflexivity.
    + rewrite IH by (intros H; apply Ha; right; exact H).
      cbn [rev]. rewrite <- app_assoc. reflexivity.
Qed.

Lemma search_placeholder_found (a x rest : text) prev :
  ~ In "{"%char a -> x <> [] -> ~ In "}"%char x ->
  search_from placeholder_re prev [] (a ++ Py.braces x ++ rest)
  = Some {| before := a; whole := Py.braces x; groups := [(1, x)];
            after := rest |}.
Proof.
  intros Ha Hne Hx. rewrite search_placeholder_skip by exact Ha.
  rewrite app_nil_r.
  assert (Hu : forall s,
             search_from placeholder_re None (rev a) s
             = match match_here placeholder_re None s with
               | Some (rest', e) =>
                   Some {| before := rev (rev a);
                           whole := firstn (List.length s - List.length rest') s;
                           groups := e; after := rest' |}
               | None =>
                   match s with
                   | [] => None
                   | c :: s' =>
                       search_from placeholder_re (Some c) (c :: rev a) s'
                   end
               end) by (intros [|c s]; reflexivity).
  rewrite Hu, (placeholder_here_match x rest None Hne Hx).
  rewrite firstn_consumed, rev_involutive. reflexivity.
Qed.

(** What [re.findall] collects does not depend on the number of steps
    allowed to the scan, beyond the length of the text, nor on the
    character before the text. *)
Lemma scan_placeholder_steps : forall len s,
  List.length s <= len ->
  forall n n' prev prev',
    List.length s < n -> List.length s < n' ->
    map (fun m => grp m 1) (fst (scan n placeholder_re prev s))
    = map (fun m => grp m 1) (fst (scan n' placeholder_re prev' s)).
Proof.
  induction len as [|len IH]; intros s Hlen n n' prev prev' Hn Hn';
    (destruct n as [|n]; [lia|]); (destruct n' as [|n']; [lia|]);
    cbn [scan];
    rewrite (search_placeholder_prev s prev), (search_placeholder_prev s prev');
    (destruct (search_from placeholder_re None [] s) as [m|] eqn:Hs;
     [|reflexivity]);
    apply search_from_inv in Hs as (sk & p' & _ & Hsplit & Hm);
    pose proof (placeholder_here_shorter _ _ _ _ Hm) as Hlt;
    rewrite length_app in Hlt;
    (destruct (whole m) as [|w0 ws] eqn:Hw; [cbn [List.length] in Hlt; lia|]);
    assert (Hs' : List.length s
                  = List.length sk + S (List.length ws)
                    + List.length (after m))
      by (rewrite Hsplit, !length_app; cbn [List.length]; lia).
  - lia.
  - match goal with
    | |- context [scan n placeholder_re ?p (after m)] =>
        specialize (IH (after m) ltac:(lia) n n' p)
    end.
    match goal with
    | |- context [scan n' placeholder_re ?p (after m)] =>
        specialize (IH p ltac:(lia) ltac:(lia))
    end.
    destruct (scan n _ _ (after m)) as [ms1 t1].
    destruct (scan n' _ _ (after m)) as [ms2 t2].
    cbn [fst map] in *. rewrite IH. reflexivity.
Qed.

(** [re.findall] on a template: text without an opening brace is passed,
    and a placeholder gives its name. *)
Lemma findall_placeholder (a x rest : text) :
  ~ In "{"%char a -> x <> [] -> ~ In "}"%char x ->
  findall1 placeholder_re (a ++ Py.braces x ++ rest)
  = x :: findall1 placeholder_re rest.
Proof.
  intros Ha Hne Hx. unfold findall1, finditer. cbn [scan].
  rewrite (search_placeholder_found a x rest None Ha Hne Hx).
  cbn [whole after before]. unfold Py.braces at 1.
  match goal with
  | |- context [scan ?n placeholder_re ?p rest] =>
      pose proof (scan_placeholder_steps (List.length rest) rest (le_n _)
                    n (S (List.length rest)) p None) as Hsteps;
      destruct (scan n placeholder_re p rest) as [ms t]
  end.
  cbn [fst map]. unfold grp at 1. cbn [groups group Nat.eqb].
  f_equal. apply Hsteps.
  - rewrite !length_app. unfold Py.braces. cbn [List.length]. lia.
  - lia.
Qed.

(** C8: the template [{x} {x} {y}] with the arguments [a] and [b].  One
    argument for each distinct name, the rule of the claim, gives
    [{a} {a} {b}] ([Spec.bind_distinct], written from the words of the
    specification).  The code lists the placeholders by occurrence, so the
    second occurrence of [x] uses up the argument [b]: [y] is left unbound
    and [b] is gone from the call.  With a third argument the later
    replacement of [{a}] also hits what the first one wrote. *)
Theorem C8_argument_used_up_by_second_occurrence :
  fix_logging_call (txt "_logger.LogInfo('{x} {x} {y}', a, b)")
  = (txt "_logger.LogInfo($'{a} {a} {y}')", 1)
  /\ Spec.bind_distinct (txt "{x} {x} {y}") [txt "a"; txt "b"]
     = Some (txt "{a} {a} {b}")
  /\ Some (bind (findall1 placeholder_re (txt "{x} {x} {y}"))
             [txt "a"; txt "b"] (txt "{x} {x} {y}"))
     <> Spec.bind_distinct (txt "{x} {x} {y}") [txt "a"; txt "b"]
  /\ fix_logging_call (txt "_logger.LogInfo('{x} {x} {a}', a, b, c)")
     = (txt "_logger.LogInfo($'{c} {c} {c}')", 1).
Proof. vm_compute. repeat split; auto. discriminate. Qed.

(** The binding loop on a template with the name [x] at two places, given
    its list of placeholders. *)
Lemma bind_repeated_name (a b c x v0 v1 : text) (ps vs : list text) :
  ~ In "{"%char a -> ~ In "{"%char b ->
  (forall new, Py.replace (Py.braces x) new c = c) ->
  ~ In "}"%char x -> ~ In "{"%char v0 -> ~ In "}"%char v0 ->
  bind (x :: x :: ps) (v0 :: v1 :: vs)
    (a ++ Py.braces x ++ b ++ Py.braces x ++ c)
  = bind ps vs
      (let w := if text_eqb v0 x then v1 else v0 in
       a ++ Py.braces w ++ b ++ Py.braces w ++ c).
Proof.
  intros Ha Hb Hc Hx Hv1 Hv2. cbn [bind]. f_equal.
  rewrite (replace_two_occurrences a b c x (Py.braces v0)) by auto.
  destruct (text_eqb v0 x) eqn:He; cbn zeta.
  - apply text_eqb_eq in He. subst v0.
    apply replace_two_occurrences; auto.
  - apply replace_two_other_names; auto.
    intros ->. rewrite (proj2 (text_eqb_eq x x) eq_refl) in He. discriminate.
Qed.

End RepeatedName.

(** ** Lines of the line-based rewriter *)

Section Lines.

Import LogErrorFixer.

(** The first two patterns build the new line from groups of a match
    inside one line, so they give one line for one line. *)
Example one_line_for_one_line :
  fix_logerror_patterns
    (txt "first" ++ [newline]
     ++ txt "  _logger.LogError('Message {P}', value, ex);" ++ [newline]
     ++ txt "last")
  = Some (txt "first" ++ [newline]
          ++ txt "_logger.LogError($'Message {value}', ex" ++ [newline]
          ++ txt "last", 1).
Proof. vm_compute. reflexivity. Qed.

(** C10: the third pattern hands the message to [re.sub] as part of the
    replacement template, where [re.sub] processes backslash escapes.  A
    message with the escape [\n] comes back with a line feed in its place:
    one line goes in and two lines come out. *)
Theorem C10_escape_in_message_adds_a_line :
  fix_logerror_patterns (txt "_logger.LogError(ex, 'Failed\nRetrying');")
  = Some (txt "_logger.LogError('Failed" ++ [newline]
          ++ txt "Retrying', ex);", 1)
  /\ line_count (txt "_logger.LogError(ex, 'Failed\nRetrying');") = 1
  /\ line_count (txt "_logger.LogError('Failed" ++ [newline]
                 ++ txt "Retrying', ex);") = 2.
Proof. vm_compute. auto. Qed.

(** With an escape that [re.sub] does not know, the same path raises and
    [fix_logerror_patterns] returns nothing at all. *)
Example unknown_escape_raises :
  fix_logerror_patterns (txt "_logger.LogError(ex, 'Failed\dRetrying');")
  = None.
Proof. vm_compute. reflexivity. Qed.

End Lines.

(** ** Backup before overwrite *)

Section Backup.

Import IO Effects.

Lemma only_printed_refl (w : world) : only_printed w w.
Proof. repeat split. Qed.

Lemma only_printed_trans (w1 w2 w3 : world) :
  only_printed w1 w2 -> only_printed w2 w3 -> only_printed w1 w3.
Proof.
  intros (A1 & A2 & A3 & A4 & A5 & A6) (B1 & B2 & B3 & B4 & B5 & B6).
  repeat split; congruence.
Qed.

Lemma accepts_all_kept (w w' : world) :
  only_printed w w' -> accepts_all w -> accepts_all w'.
Proof. intros (_ & _ & _ & _ & _ & Hc) H o. rewrite Hc. apply H. Qed.

(** [print] changes the console output only, and raises only when the
    console refuses the line. *)
Lemma print_effect (o : output) (w : world) :
  only_printed w (snd (print o w))
  /\ (console w o = true -> fst (print o w) = Some tt).
Proof.
  unfold print. destruct (console w o); cbn [fst snd].
  - split; [repeat split|reflexivity].
  - split; [apply only_printed_refl|discriminate].
Qed.

Lemma print_all_effect : forall (lines : list output) (w : world),
  only_printed w (snd (ComprehensiveFiles.print_all lines w))
  /\ (accepts_all w ->
      fst (ComprehensiveFiles.print_all lines w) = Some tt).
Proof.
  induction lines as [|o lines IH]; intros w; cbn [ComprehensiveFiles.print_all].
  - split; [apply only_printed_refl|reflexivity].
  - unfold bind. destruct (print_effect o w) as [Hp Hr].
    destruct (print o w) as [[[]|] w1]; cbn [fst snd] in *.
    + destruct (IH w1) as [Hp' Hr']. split.
      * eapply only_printed_trans; eassumption.
      * intros Hall. apply Hr'. eapply accepts_all_kept; eassumption.
    + split; [exact Hp|]. intros Hall. specialize (Hr (Hall o)).
      discriminate.
Qed.

(** The passes of [fix_logging_call] with their printing: the files are
    not touched, and what is returned is what [fix_logging_call]
    computes.  Without [verbose], and on a console that takes every line,
    the passes return. *)
Lemma fix_methods_effect (verbose : bool) :
  forall (methods : list text) (acc : text * nat) (w : world),
    let pure :=
      fold_left (fun acc method =>
                   ComprehensiveLoggingFixer.fix_method method acc)
                methods acc in
    only_printed w (snd (ComprehensiveFiles.fix_methods verbose methods acc w))
    /\ (fst (ComprehensiveFiles.fix_methods verbose methods acc w) = None
        \/ fst (ComprehensiveFiles.fix_methods verbose methods acc w)
           = Some pure)
    /\ (verbose = false \/ accepts_all w ->
        fst (ComprehensiveFiles.fix_methods verbose methods acc w)
        = Some pure).
Proof.
  induction methods as [|method methods IH]; intros acc w pure;
    cbn [ComprehensiveFiles.fix_methods].
  - split; [apply only_printed_refl|]. split; [right|intros _]; reflexivity.
  - subst pure. cbn [fold_left]. unfold bind.
    set (step := if verbose
                 then ComprehensiveFiles.print_all _ else ret tt).
    assert (Hstep : only_printed w (snd (step w))
                    /\ (verbose = false \/ accepts_all w ->
                        fst (step w) = Some tt)).
    { subst step. destruct verbose.
      - destruct (print_all_effect
                    (flat_map (ComprehensiveFiles.verbose_lines method)
                       (fst (finditer
                               (ComprehensiveLoggingFixer.pattern method)
                               (fst acc)))) w) as [H1 H2].
        split; [exact H1|]. intros [H|H]; [discriminate|auto].
      - split; [apply only_printed_refl|reflexivity]. }
    destruct Hstep as [Hp Hr].
    destruct (step w) as [[[]|] w1]; cbn [fst snd] in *.
    + destruct (IH (ComprehensiveLoggingFixer.fix_method method acc) w1)
        as (Hp' & Hor & Hr').
      split; [eapply only_printed_trans; eassumption|].
      split; [exact Hor|]. intros H. apply Hr'.
      destruct H as [H|H]; [left; exact H|right].
      eapply accepts_all_kept; eassumption.
    + split; [exact Hp|]. split; [left; reflexivity|].
      intros H. specialize (Hr H). discriminate.
Qed.

Lemma fix_methods_quiet : forall (methods : list text) (acc : text * nat)
    (w : world),
  ComprehensiveFiles.fix_methods false methods acc w
  = (Some (fold_left (fun acc method =>
                        ComprehensiveLoggingFixer.fix_method method acc)
                     methods acc), w).
Proof.
  induction methods as [|method methods IH]; intros acc w;
    cbn [ComprehensiveFiles.fix_methods fold_left]; [reflexivity|].
  unfold bind, ret. apply IH.
Qed.

(** One [write_text]: its event is logged, no other file changes, and
    when the write goes through the file holds the content, with the line
    separator of the platform for every line feed. *)
Lemma write_text_effect (path : string) (content : text) (w : world) :
  let w' := snd (write_text path content w) in
  log w' = log w ++ [write_event w path content]
  /\ (forall p, p <> path -> files w' !! p = files w !! p)
  /\ writable w' = writable w /\ breaks w' = breaks w
  /\ linesep w' = linesep w /\ console w' = console w
  /\ (if written w path
      then fst (write_text path content w) = Some tt
           /\ files w' !! path
              = Some (written_newlines (linesep w) content)
      else fst (write_text path content w) = None)
  /\ (writable w path = false -> files w' = files w).
Proof.
  unfold write_text, write_event, written.
  destruct (writable w path); [|cbn; repeat split; auto].
  destruct (breaks w path) as [[remains|]|]; cbn [fst snd andb];
    unfold after_write; cbn [files log writable breaks linesep console];
    repeat split; auto; try discriminate;
    try (intros p Hp; first [apply lookup_insert_ne | apply lookup_delete_ne];
         congruence).
  apply lookup_insert_eq.
Qed.

(** The handler of the [except] clause prints and returns [False]; it
    raises when the console refuses its line. *)
Lemma handler_effect (filepath : string) (w : world) :
  let run := (_ <- print (Failed filepath) ;; ret false) w in
  only_printed w (snd run) /\ fst run <> Some true
  /\ (console w (Failed filepath) = true -> fst run = Some false).
Proof.
  unfold bind, ret. destruct (print_effect (Failed filepath) w) as [Hp Hr].
  destruct (print (Failed filepath) w) as [[[]|] w1]; cbn [fst snd] in *.
  - repeat split; try apply Hp; discriminate.
  - split; [exact Hp|]. split; [discriminate|].
    intros H. specialize (Hr H). discriminate.
Qed.

Lemma string_length_append (a b : string) :
  String.length (a ++ b) = String.length a + String.length b.
Proof.
  induction a as [|c a IH]; [reflexivity|].
  simpl. f_equal. exact IH.
Qed.

(** A backup is not the file itself. *)
Lemma backup_is_another_file (filepath ext : string) :
  ext <> ""%string -> with_added_suffix filepath ext <> filepath.
Proof.
  intros Hext H. apply (f_equal String.length) in H.
  unfold with_added_suffix in H. rewrite string_length_append in H.
  destruct ext; [congruence|]. cbn in H. lia.
Qed.

(** The two writes and the line printed after them. *)
Lemma backup_and_write (backup filepath : string) (c1 c2 : text)
    (o : output) (w : world) :
  backup <> filepath ->
  let run := (_ <- write_text backup c1 ;;
              _ <- write_text filepath c2 ;;
              _ <- print o ;;
              ret true) w in
  rewritten w (snd run) (fst run) backup filepath c1 c2
  /\ fst run <> Some false
  /\ (written w backup = true -> written w filepath = true ->
      console w o = true -> fst run = Some true)
  /\ console (snd run) = console w.
Proof.
  intros Hne. unfold rewritten, bind, ret.
  destruct (write_text_effect backup c1 w)
    as (L1 & F1 & W1 & B1 & S1 & C1 & R1 & _).
  destruct (write_text backup c1 w) as [r1 w1]; cbn [fst snd] in *.
  destruct (written w backup) eqn:Hb.
  2:{ subst r1. cbn [fst snd]. rewrite L1.
      repeat split; auto; try discriminate. }
  destruct R1 as [-> Hfile1].
  destruct (write_text_effect filepath c2 w1)
    as (L2 & F2 & W2 & B2 & S2 & C2 & R2 & _).
  assert (Hsame : written w1 filepath = written w filepath).
  { unfold written. rewrite W1, B1. reflexivity. }
  assert (Hev : write_event w1 filepath c2 = write_event w filepath c2).
  { unfold write_event. rewrite W1, B1, S1. reflexivity. }
  rewrite Hsame, Hev, S1 in *.
  destruct (write_text filepath c2 w1) as [r2 w2]; cbn [fst snd] in *.
  assert (Hlog : log w2
                 = log w ++ [write_event w backup c1;
                             write_event w filepath c2]).
  { rewrite L2, L1, <- app_assoc. reflexivity. }
  assert (Hframe : forall p, p <> filepath -> p <> backup ->
                     files w2 !! p = files w !! p).
  { intros p Hp1 Hp2. rewrite F2 by exact Hp1. apply F1. exact Hp2. }
  assert (Hbak : files w2 !! backup
                 = Some (written_newlines (linesep w) c1)).
  { rewrite F2 by exact Hne. exact Hfile1. }
  destruct (written w filepath) eqn:Hf.
  2:{ subst r2. cbn [fst snd].
      repeat split; auto; try discriminate. congruence. }
  destruct R2 as [-> Hfile2].
  destruct (print_effect o w2) as [(P1 & P2 & _ & _ & _ & P6) Hr].
  destruct (print o w2) as [[[]|] w3]; cbn [fst snd] in *;
    rewrite ?P1, ?P2, ?P6;
    repeat split; auto; try discriminate; try congruence.
  intros _ _ Hc. rewrite C2, C1 in Hr. specialize (Hr Hc). discriminate.
Qed.

(** [process_file] of ComprehensiveLoggingFixer, step by step. *)
Lemma comprehensive_process_file_steps (verbose : bool)
    (filepath : string) (w : world) :
  let handler := (_ <- print (Failed filepath) ;; ret false) in
  ComprehensiveFiles.process_file verbose filepath w
  = match files w !! filepath with
    | None => handler w
    | Some disk =>
        match ComprehensiveFiles.fix_methods verbose
                ComprehensiveLoggingFixer.logging_methods
                (universal_newlines disk, 0) w with
        | (None, w1) => handler w1
        | (Some (fixed, 0), w1) =>
            match (if verbose then print (NoChanges filepath) else ret tt) w1
            with
            | (Some _, w2) => (Some false, w2)
            | (None, w2) => handler w2
            end
        | (Some (fixed, S n), w1) =>
            match (_ <- write_text
                          (with_added_suffix filepath ".bak_phase2")
                          (universal_newlines disk) ;;
                   _ <- write_text filepath fixed ;;
                   _ <- print (Fixed (S n) filepath) ;;
                   ret true) w1 with
            | (Some b, w2) => (Some b, w2)
            | (None, w2) => handler w2
            end
        end
    end.
Proof.
  intros handler. unfold ComprehensiveFiles.process_file, try_except.
  fold handler. unfold bind at 1, read_text.
  destruct (files w !! filepath) as [disk|]; [|reflexivity].
  unfold bind at 1.
  destruct (ComprehensiveFiles.fix_methods verbose _ _ w)
    as [[[fixed [|n]]|] w1]; cbn [Nat.ltb Nat.leb]; try reflexivity.
  unfold bind at 1, ret.
  destruct ((if verbose then print (NoChanges filepath) else _) w1)
    as [[[]|] w2]; reflexivity.
Qed.

(** What [process_file] of ComprehensiveLoggingFixer does.  Either it
    attempts no write at all, or the file could be read, the content as
    read has a rewritten call, and the two writes are attempted, the
    backup first.  On a console that takes every line it returns. *)
Lemma comprehensive_process_file_effect (verbose : bool)
    (filepath : string) (w : world) :
  let backup := with_added_suffix filepath ".bak_phase2" in
  let run := ComprehensiveFiles.process_file verbose filepath w in
  ((files (snd run) = files w /\ log (snd run) = log w
    /\ fst run <> Some true)
   \/ exists disk fixed n,
        files w !! filepath = Some disk
        /\ ComprehensiveLoggingFixer.fix_logging_call
             (universal_newlines disk) = (fixed, S n)
        /\ rewritten w (snd run) (fst run) backup filepath
             (universal_newlines disk) fixed)
  /\ (accepts_all w -> exists modified, fst run = Some modified)
  /\ (verbose = false -> forall disk,
        files w !! filepath = Some disk ->
        snd (ComprehensiveLoggingFixer.fix_logging_call
               (universal_newlines disk)) = 0 ->
        run = (Some false, w)).
Proof.
  intros backup run. subst run.
  assert (Hne : backup <> filepath)
    by (apply backup_is_another_file; discriminate).
  rewrite comprehensive_process_file_steps. cbv zeta. fold backup.
  destruct (files w !! filepath) as [disk|] eqn:Hread.
  2:{ destruct (handler_effect filepath w)
        as ((H1 & H2 & _) & Hr & Hret).
      split; [left; auto|]. split.
      - intros Hall. eexists. apply Hret, Hall.
      - intros _ d Hd. discriminate. }
  destruct (fix_methods_effect verbose
              ComprehensiveLoggingFixer.logging_methods
              (universal_newlines disk, 0) w) as (Hp & Hor & Hret).
  fold (ComprehensiveLoggingFixer.fix_logging_call (universal_newlines disk))
    in Hor, Hret.
  destruct (ComprehensiveFiles.fix_methods verbose _ _ w) as [r1 w1]
    eqn:Hmeth; cbn [fst snd] in *.
  pose proof Hp as (P1 & P2 & P3 & P4 & P5 & P6).
  destruct r1 as [[fixed changes]|].
  2:{ destruct (handler_effect filepath w1)
        as ((H1 & H2 & _) & Hr & Hret').
      split; [left; repeat split; congruence|]. split.
      - intros Hall. eexists. apply Hret'. rewrite P6. apply Hall.
      - intros -> d Hd Hz.
        specialize (Hret (or_introl eq_refl)). discriminate. }
  destruct Hor as [Hor|Hor]; [discriminate|].
  injection Hor as Hfix. symmetry in Hfix.
  destruct changes as [|n].
  - (* no rewritten call *)
    set (quiet := if verbose then print (NoChanges filepath) else ret tt).
    assert (Hq : only_printed w1 (snd (quiet w1))
                 /\ (accepts_all w1 -> fst (quiet w1) = Some tt)
                 /\ (verbose = false -> quiet w1 = (Some tt, w1))).
    { subst quiet. destruct verbose.
      - destruct (print_effect (NoChanges filepath) w1) as [Q1 Q2].
        split; [exact Q1|]. split; [|discriminate].
        intros H. exact (Q2 (H _)).
      - split; [apply only_printed_refl|]. split; reflexivity. }
    destruct Hq as (Q1 & Q2 & Q3).
    destruct (quiet w1) as [[[]|] w2] eqn:Hquiet; cbn [fst snd] in *.
    + pose proof (only_printed_trans _ _ _ Hp Q1) as (T1 & T2 & _).
      split; [left; repeat split; auto; discriminate|]. split.
      * intros _. eexists. reflexivity.
      * intros Hv d Hd Hz. specialize (Q3 Hv). injection Q3 as <-.
        f_equal. clear -Hmeth Hv. subst verbose.
        rewrite fix_methods_quiet in Hmeth. congruence.
    + pose proof (only_printed_trans _ _ _ Hp Q1) as Hp2.
      destruct (handler_effect filepath w2) as ((H1 & H2 & _) & Hr & Hret').
      destruct Hp2 as (T1 & T2 & T3 & T4 & T5 & T6).
      split; [left; repeat split; congruence|]. split.
      * intros Hall. exfalso.
        assert (Hall1 : accepts_all w1)
          by (intros o; rewrite P6; apply Hall).
        specialize (Q2 Hall1). discriminate.
      * intros Hv. specialize (Q3 Hv). discriminate.
  - (* a rewritten call: the two writes *)
    destruct (backup_and_write backup filepath (universal_newlines disk)
                fixed (Fixed (S n) filepath) w1 Hne)
      as (Hrw & Hnf & Hgo & Hcon).
    assert (Hw : forall p, written w1 p = written w p)
      by (intros p; unfold written; rewrite P3, P4; reflexivity).
    assert (He : forall p c, write_event w1 p c = write_event w p c)
      by (intros p c; unfold write_event; rewrite P3, P4, P5; reflexivity).
    unfold rewritten in Hrw. rewrite !Hw, !He, P1, P2, P5 in Hrw.
    destruct Hrw as (R1 & R2 & R3 & R4 & R5).
    match goal with
    | |- context [match ?t with (_, _) => _ end] =>
        destruct t as [[b|] w2] eqn:Htail
    end; cbn [fst snd] in *.
    + split.
      * right. exists disk, fixed, n. split; [reflexivity|].
        split; [exact Hfix|]. unfold rewritten.
        split; [exact R1|]. split; [exact R2|]. split; [exact R3|].
        split; [exact R4|exact R5].
      * split; [intros _; eexists; reflexivity|].
        intros _ d Hd Hz. exfalso.
        assert (d = disk) by congruence. subst d.
        rewrite Hfix in Hz. discriminate.
    + destruct (handler_effect filepath w2) as ((H1 & H2 & _) & Hr & Hret').
      split.
      * right. exists disk, fixed, n. split; [reflexivity|].
        split; [exact Hfix|]. unfold rewritten.
        rewrite H1, H2.
        split; [exact R1|]. split; [exact R2|]. split; [exact R3|].
        split; [exact R4|].
        intros Ht. exfalso. apply Hr. exact Ht.
      * split.
        -- intros Hall. eexists. apply Hret'. rewrite Hcon, P6. apply Hall.
        -- intros _ d Hd Hz. exfalso.
           assert (d = disk) by congruence. subst d.
           rewrite Hfix in Hz. discriminate.
Qed.

(** ComprehensiveLoggingFixer: a file without a rewritten call is not
    written to. *)
Lemma process_file_without_change (filepath : string) (w : world)
    (disk : text) :
  files w !! filepath = Some disk ->
  snd (ComprehensiveLoggingFixer.fix_logging_call (universal_newlines disk))
  = 0 ->
  ComprehensiveFiles.process_file false filepath w = (Some false, w).
Proof.
  intros Hread Hzero.
  destruct (comprehensive_process_file_effect false filepath w)
    as (_ & _ & H).
  exact (H eq_refl disk Hread Hzero).
Qed.

(** ComprehensiveLoggingFixer: with a rewritten call the backup is
    attempted first, with the content that was read; the file itself is
    attempted only when the backup has been written, and is as it was
    when the backup has not. *)
Lemma process_file_backup_first (verbose : bool) (filepath : string)
    (w : world) :
  let backup := with_added_suffix filepath ".bak_phase2" in
  let run := ComprehensiveFiles.process_file verbose filepath w in
  log (snd run) <> log w ->
  exists disk fixed n,
    files w !! filepath = Some disk
    /\ ComprehensiveLoggingFixer.fix_logging_call (universal_newlines disk)
       = (fixed, S n)
    /\ rewritten w (snd run) (fst run) backup filepath
         (universal_newlines disk) fixed.
Proof.
  intros backup run Hlog.
  destruct (comprehensive_process_file_effect verbose filepath w)
    as ([(_ & H & _)|H] & _); [contradiction|exact H].
Qed.


(** The loop of LoggingParameterFixer over the lines prints and does
    nothing else to the world. *)
Lemma fix_lines_effect : forall (lines : list text) (line_num : nat)
    (acc : list text * bool * nat) (w : world),
  only_printed w (snd (ParameterFiles.fix_lines line_num lines acc w))
  /\ (accepts_all w ->
      exists r, fst (ParameterFiles.fix_lines line_num lines acc w)
                = Some r).
Proof.
  induction lines as [|line lines IH]; intros line_num [[new_lines m] fc] w;
    cbn [ParameterFiles.fix_lines].
  - split; [apply only_printed_refl|]. intros _. eexists. reflexivity.
  - destruct (LoggingParameterFixer.fix_line
                (ParameterFiles.rstrip_newline line)) as [new_line changes].
    destruct (0 <? changes); [|apply IH].
    unfold bind.
    destruct (print_effect (LineFixed line_num changes) w) as [Hp Hr].
    destruct (print (LineFixed line_num changes) w) as [[[]|] w1];
      cbn [fst snd] in *.
    + destruct (IH (S line_num)
                  (new_lines ++ [new_line], true, fc + changes) w1)
        as [Hp' Hr'].
      split; [eapply only_printed_trans; eassumption|].
      intros Hall. apply Hr'. eapply accepts_all_kept; eassumption.
    + split; [exact Hp|]. intros Hall. specialize (Hr (Hall _)).
      discriminate.
Qed.

(** [process_file] of LoggingParameterFixer, step by step. *)
Lemma parameter_process_file_steps (filepath : string) (w : world) :
  let handler := (_ <- print (Failed filepath) ;; ret false) in
  ParameterFiles.process_file filepath w
  = match files w !! filepath with
    | None => handler w
    | Some disk =>
        let lines := ParameterFiles.readlines (universal_newlines disk) in
        match ParameterFiles.fix_lines 1 lines ([], false, 0) w with
        | (None, w1) => handler w1
        | (Some (new_lines, false, file_changes), w1) => (Some false, w1)
        | (Some (new_lines, true, file_changes), w1) =>
            match (_ <- write_text
                          (with_added_suffix filepath ".bak_phase2")
                          (ParameterFiles.with_newlines lines) ;;
                   _ <- write_text filepath
                          (ParameterFiles.with_newlines new_lines) ;;
                   _ <- print (Fixed file_changes filepath) ;;
                   ret true) w1 with
            | (Some b, w2) => (Some b, w2)
            | (None, w2) => handler w2
            end
        end
    end.
Proof.
  intros handler. unfold ParameterFiles.process_file, try_except.
  fold handler. unfold bind at 1, read_text.
  destruct (files w !! filepath) as [disk|]; [|reflexivity].
  cbv zeta. unfold bind at 1.
  destruct (ParameterFiles.fix_lines 1 _ _ w)
    as [[[[new_lines [|]] fc]|] w1]; reflexivity.
Qed.

(** What [process_file] of LoggingParameterFixer does to the files: only
    the file and its backup can change, the backup is attempted first and
    the file only when the backup has been written, and on a console that
    takes every line the function returns. *)
Lemma parameter_process_file_effect (filepath : string) (w : world) :
  let backup := with_added_suffix filepath ".bak_phase2" in
  let run := ParameterFiles.process_file filepath w in
  ((files (snd run) = files w /\ log (snd run) = log w
    /\ fst run <> Some true)
   \/ exists content fixed,
        rewritten w (snd run) (fst run) backup filepath content fixed)
  /\ (accepts_all w -> exists modified, fst run = Some modified).
Proof.
  intros backup run. subst run.
  assert (Hne : backup <> filepath)
    by (apply backup_is_another_file; discriminate).
  rewrite parameter_process_file_steps. cbv zeta. fold backup.
  destruct (files w !! filepath) as [disk|] eqn:Hread.
  2:{ destruct (handler_effect filepath w)
        as ((H1 & H2 & _) & Hr & Hret).
      split; [left; auto|].
      intros Hall. eexists. apply Hret, Hall. }
  destruct (fix_lines_effect
              (ParameterFiles.readlines (universal_newlines disk)) 1
              ([], false, 0) w) as (Hp & Hret).
  destruct (ParameterFiles.fix_lines 1 _ _ w) as [r1 w1];
    cbn [fst snd] in *.
  pose proof Hp as (P1 & P2 & P3 & P4 & P5 & P6).
  destruct r1 as [[[new_lines modified] fc]|].
  2:{ destruct (handler_effect filepath w1)
        as ((H1 & H2 & _) & Hr & Hret').
      split; [left; repeat split; congruence|].
      intros Hall. destruct (Hret Hall) as [r Hr']. discriminate. }
  destruct modified.
  - set (lines := ParameterFiles.readlines (universal_newlines disk)).
    destruct (backup_and_write backup filepath
                (ParameterFiles.with_newlines lines)
                (ParameterFiles.with_newlines new_lines)
                (Fixed fc filepath) w1 Hne)
      as (Hrw & Hnf & Hgo & Hcon).
    assert (Hw : forall p, written w1 p = written w p)
      by (intros p; unfold written; rewrite P3, P4; reflexivity).
    assert (He : forall p c, write_event w1 p c = write_event w p c)
      by (intros p c; unfold write_event; rewrite P3, P4, P5; reflexivity).
    unfold rewritten in Hrw. rewrite !Hw, !He, P1, P2, P5 in Hrw.
    destruct Hrw as (R1 & R2 & R3 & R4 & R5).
    match goal with
    | |- context [match ?t with (_, _) => _ end] =>
        destruct t as [[b|] w2] eqn:Htail
    end; cbn [fst snd] in *.
    + split; [|intros _; eexists; reflexivity].
      right. exists (ParameterFiles.with_newlines lines),
               (ParameterFiles.with_newlines new_lines).
      unfold rewritten.
      split; [exact R1|]. split; [exact R2|]. split; [exact R3|].
      split; [exact R4|exact R5].
    + destruct (handler_effect filepath w2) as ((H1 & H2 & _) & Hr & Hret').
      split.
      * right. exists (ParameterFiles.with_newlines lines),
                 (ParameterFiles.with_newlines new_lines).
        unfold rewritten. rewrite H1, H2.
        split; [exact R1|]. split; [exact R2|]. split; [exact R3|].
        split; [exact R4|].
        intros Ht. exfalso. apply Hr. exact Ht.
      * intros Hall. eexists. apply Hret'. rewrite Hcon, P6. apply Hall.
  - split; [|intros _; eexists; reflexivity].
    left. repeat split; auto; discriminate.
Qed.

(** C6 (LoggingParameterFixer): the lines come from [readlines] with their
    line feeds and are written to the backup with one more line feed each.
    For a file of one line that ends in a line feed, the backup ends in two
    line feeds: it is not the content that was read. *)
Theorem C6_backup_differs_from_original :
  let original := txt "_logger.LogInfo('A {a}', x);" ++ [newline] in
  let w := {| files := {[ "Service.cs"%string := original ]};
              writable := fun _ => true;
              breaks := fun _ => None;
              linesep := [newline];
              console := fun _ => true;
              log := [];
              stdout := [] |} in
  let (result, w') := ParameterFiles.process_file "Service.cs"%string w in
  result = Some true
  /\ log w'
     = [Wrote "Service.cs.bak_phase2"%string
          (txt "_logger.LogInfo('A {a}', x);" ++ [newline; newline]);
        Wrote "Service.cs"%string
          (txt "_logger.LogInfo($'A {x}');" ++ [newline])]
  /\ files w' !! "Service.cs.bak_phase2"%string
     = Some (txt "_logger.LogInfo('A {a}', x);" ++ [newline; newline])
  /\ files w' !! "Service.cs.bak_phase2"%string <> Some original.
Proof. vm_compute. repeat split; auto. discriminate. Qed.

(** On the same file ComprehensiveLoggingFixer writes the content that was
    read to the backup. *)
Example comprehensive_backup_is_the_original :
  let original := txt "_logger.LogInfo('A {a}', x);" ++ [newline] in
  let w := {| files := {[ "Service.cs"%string := original ]};
              writable := fun _ => true;
              breaks := fun _ => None;
              linesep := [newline];
              console := fun _ => true;
              log := [];
              stdout := [] |} in
  let (result, w') :=
    ComprehensiveFiles.process_file false "Service.cs"%string w in
  result = Some true
  /\ log w'
     = [Wrote "Service.cs.bak_phase2"%string original;
        Wrote "Service.cs"%string
          (txt "_logger.LogInfo($'A {x}');" ++ [newline])]
  /\ files w' !! "Service.cs.bak_phase2"%string = Some original.
Proof. vm_compute. repeat split; auto. Qed.

(** On a console that cannot show the mark of the last line, the files
    are written all the same, and then [process_file] raises: the line of
    the handler has a mark too. *)
Example process_file_raises_on_plain_console :
  let original := txt "_logger.LogInfo('A {a}', x);" ++ [newline] in
  let w := {| files := {[ "Service.cs"%string := original ]};
              writable := fun _ => true;
              breaks := fun _ => None;
              linesep := [newline];
              console := fun o => negb (has_mark o);
              log := [];
              stdout := [] |} in
  let (result, w') :=
    ComprehensiveFiles.process_file false "Service.cs"%string w in
  result = None
  /\ files w' !! "Service.cs"%string
     = Some (txt "_logger.LogInfo($'A {x}');" ++ [newline])
  /\ files w' !! "Service.cs.bak_phase2"%string = Some original.
Proof. vm_compute. repeat split; auto. Qed.

End Backup.

(** * Further properties of the scripts *)

(** ** One pass of [re.sub] *)

Section Passes.

Import ComprehensiveLoggingFixer.

(** The matches and the text between them make up the text that was
    scanned. *)
Lemma scan_pieces r : forall n prev s ms rest,
  scan n r prev s = (ms, rest) ->
  s = flat_map (fun m => before m ++ whole m) ms ++ rest.
Proof.
  induction n as [|n IH]; intros prev s ms rest H; cbn [scan] in H.
  - injection H as <- <-. reflexivity.
  - destruct (search_from r prev [] s) as [m|] eqn:Hs.
    2:{ injection H as <- <-. reflexivity. }
    apply search_from_inv in Hs as (sk & p' & Hb & Hsplit & _).
    cbn [rev app] in Hb. subst sk.
    destruct (whole m) as [|w0 ws] eqn:Hw.
    + destruct (after m) as [|c rest0] eqn:Ha.
      * injection H as <- <-. cbn [flat_map]. rewrite Hw.
        rewrite Hsplit. rewrite !app_nil_r. reflexivity.
      * destruct (scan n r (Some c) rest0) as [ms' tl_] eqn:Hsc.
        apply IH in Hsc. injection H as <- <-.
        cbn [flat_map]. rewrite Hw, Hsplit. cbn [app].
        rewrite app_nil_r, <- app_assoc. f_equal.
        destruct ms' as [|m' ms'']; cbn [flat_map app before whole] in *.
        -- rewrite Hsc. reflexivity.
        -- rewrite Hsc. rewrite <- !app_assoc. reflexivity.
    + destruct (scan n r _ (after m)) as [ms' tl_] eqn:Hsc.
      apply IH in Hsc. injection H as <- <-.
      cbn [flat_map]. rewrite Hw, Hsplit, <- !app_assoc.
      rewrite Hsc at 1. reflexivity.
Qed.

Lemma replacer_not_counted (m : Match) :
  snd (replacer m) = false -> fst (replacer m) = whole m.
Proof.
  unfold replacer. destruct (findall1 placeholder_re (grp m 2)).
  - reflexivity.
  - destruct (pop_exception _) as [params' [ex|]]; discriminate.
Qed.

Lemma filter_nil_all (f : Match -> bool) : forall l : list Match,
  filter (fun m => f m) l = [] -> forall x, In x l -> f x = false.
Proof.
  induction l as [|a l IH]; intros H x Hin; [destruct Hin|].
  rewrite filter_cons in H. destruct (decide (f a)) as [_|Hf]; [discriminate|].
  destruct Hin as [<-|Hin]; [|auto].
  destruct (f a); [exfalso; apply Hf; exact I|reflexivity].
Qed.

Lemma fix_method_count (method content : text) (n : nat) :
  n <= snd (fix_method method (content, n))
  /\ (snd (fix_method method (content, n)) = n ->
      fst (fix_method method (content, n)) = content).
Proof.
  unfold fix_method, finditer.
  destruct (scan _ _ _ content) as [ms rest] eqn:Hsc. cbn [fst snd].
  split; [lia|]. intros Hn.
  assert (Hnil : filter (fun m => snd (replacer m)) ms = []).
  { destruct (filter _ ms); [reflexivity|]. cbn [List.length] in Hn. lia. }
  etransitivity; [|symmetry; exact (scan_pieces _ _ _ _ _ _ Hsc)]. f_equal.
  pose proof (filter_nil_all _ _ Hnil) as Hall. clear -Hall.
  induction ms as [|m ms IH]; [reflexivity|]. cbn [flat_map].
  rewrite (replacer_not_counted m) by (apply Hall; left; reflexivity).
  rewrite IH; [reflexivity|]. intros x Hx. apply Hall. right; exact Hx.
Qed.

Lemma fix_methods_count : forall methods content n,
  n <= snd (fold_left (fun acc method => fix_method method acc) methods
              (content, n))
  /\ (snd (fold_left (fun acc method => fix_method method acc) methods
             (content, n)) = n ->
      fst (fold_left (fun acc method => fix_method method acc) methods
             (content, n)) = content).
Proof.
  induction methods as [|method methods IH]; intros content n;
    cbn [fold_left]; [cbn [fst snd]; split; [lia|reflexivity]|].
  destruct (fix_method_count method content n) as [Hle Heq].
  destruct (fix_method method (content, n)) as [c1 n1] eqn:H1.
  cbn [fst snd] in *.
  destruct (IH c1 n1) as [Hle' Heq'].
  split; [lia|]. intros Hn.
  assert (n1 = n) by lia. subst n1.
  rewrite Heq' by exact Hn. apply Heq. reflexivity.
Qed.

(** X1: [fix_logging_call] reports no change only for a content that it
    returns as it was. *)
Theorem no_counted_change_no_change (content : text) :
  snd (fix_logging_call content) = 0 ->
  fst (fix_logging_call content) = content.
Proof.
  unfold fix_logging_call.
  apply (fix_methods_count logging_methods content 0).
Qed.

Lemma no_counted_change_no_change_witness :
  fst (fix_logging_call (txt "LogError('A {a}', a); // no receiver"))
  = txt "LogError('A {a}', a); // no receiver".
Proof.
  apply (no_counted_change_no_change
           (txt "LogError('A {a}', a); // no receiver")).
  vm_compute. reflexivity.
Defined.

(** The text of a match begins with the receiver, the method name and the
    parenthesis. *)
Lemma match_here_call_prefix_taken (method : text) (b : regex) prev s rest e :
  match_here (Seq (call_prefix method) b) prev s = Some (rest, e) ->
  exists recv t,
    In recv receivers /\ s = (recv ++ method ++ "("%char :: t) ++ rest.
Proof.
  intros H. unfold match_here, call_prefix, receiver_re in H.
  cbn [run] in H.
  assert (Hrecv : exists recv p1 s1,
             In recv receivers /\ s = recv ++ s1
             /\ run (Lit method) p1 s1 []
                  (fun p2 s2 e2 =>
                     run (Chr (chr_is "(")) p2 s2 e2
                       (fun p3 s3 e3 =>
                          run b p3 s3
                            ((1, firstn (List.length s - List.length s3) s)
                               :: e3)
                            (fun _ s' e' => Some (s', e'))))
                = Some (rest, e)).
  { match type of H with
    | match ?t with _ => _ end = _ => destruct t as [y|] eqn:H1
    end.
    - injection H as ->. apply run_Lit in H1 as (p1 & s1 & -> & H1).
      exists (txt "TradingLogOrchestrator.Instance."), p1, s1.
      repeat split; auto. left; reflexivity.
    - apply run_Lit in H as (p1 & s1 & -> & H).
      exists (txt "_logger."), p1, s1.
      repeat split; auto. right; left; reflexivity. }
  destruct Hrecv as (recv & p1 & s1 & Hin & -> & H1).
  apply run_Lit in H1 as (p2 & s2 & -> & H2). cbn [run] in H2.
  destruct s2 as [|c s3]; [discriminate|].
  unfold chr_is in H2.
  destruct (Ascii.eqb_spec "("%char c) as [<-|]; [|discriminate].
  apply run_inv in H2 as (p' & s' & e' & t & -> & Hk & _).
  injection Hk as -> ->.
  exists recv, t. split; [exact Hin|].
  rewrite <- !app_assoc. reflexivity.
Qed.

(** X2: one [re.sub] of [fix_logging_call] touches the text of its matches
    only.  The matches are those that [re.finditer] finds for the pattern:
    each is a match of the pattern at its place, and starts with a
    receiver, the method name and an opening parenthesis.  The content is
    made up of the texts before the matches, the matches and the text
    after the last one; the result has the same texts before and after,
    with the replacement in the place of each match. *)
Theorem re_sub_touches_matches_only (method content : text) (n : nat) :
  let ms := fst (finditer (pattern method) content) in
  let rest := snd (finditer (pattern method) content) in
  content = flat_map (fun m => before m ++ whole m) ms ++ rest
  /\ fst (fix_method method (content, n))
     = flat_map (fun m => before m ++ fst (replacer m)) ms ++ rest
  /\ Forall (fun m =>
               (exists prev,
                   match_here (pattern method) prev (whole m ++ after m)
                   = Some (after m, groups m))
               /\ exists recv t,
                    In recv receivers
                    /\ whole m = recv ++ method ++ "("%char :: t) ms.
Proof.
  unfold fix_method, finditer.
  destruct (scan _ _ _ content) as [ms rest] eqn:Hsc. cbn [fst snd].
  split; [exact (scan_pieces _ _ _ _ _ _ Hsc)|].
  split; [reflexivity|].
  apply Forall_forall. intros m Hin. apply list_elem_of_In in Hin.
  destruct (scan_matches _ _ _ _ _ _ m Hsc Hin) as (p' & Hm).
  split; [exists p'; exact Hm|].
  apply match_here_call_prefix_taken in Hm as (recv & t & Hr & Ht).
  apply app_inv_tail in Ht. eauto.
Qed.

End Passes.

(** ** What the splitter returns *)

Section SplitterResults.

Import ComprehensiveLoggingFixer Shapes.

Lemma lstrip_by_head (p : ascii -> bool) : forall s c rest,
  Py.lstrip_by p s = c :: rest -> p c = false.
Proof.
  induction s as [|x s IH]; intros c rest H; cbn [Py.lstrip_by] in H.
  - discriminate.
  - destruct (p x) eqn:Hx; [eauto|]. injection H as <- _. exact Hx.
Qed.

Lemma lstrip_by_suffix (p : ascii -> bool) : forall s,
  exists d, s = d ++ Py.lstrip_by p s.
Proof.
  induction s as [|x s [d IH]]; cbn [Py.lstrip_by].
  - exists []. reflexivity.
  - destruct (p x).
    + exists (x :: d). cbn [app]. f_equal. exact IH.
    + exists []. reflexivity.
Qed.

Lemma rstrip_by_last (p : ascii -> bool) (s front : text) (c : ascii) :
  Py.rstrip_by p s = front ++ [c] -> p c = false.
Proof.
  unfold Py.rstrip_by. intros H.
  apply (f_equal (@rev ascii)) in H. rewrite rev_involutive, rev_unit in H.
  exact (lstrip_by_head p _ _ _ H).
Qed.

Lemma rstrip_by_prefix (p : ascii -> bool) (s : text) :
  exists d, s = Py.rstrip_by p s ++ d.
Proof.
  unfold Py.rstrip_by.
  destruct (lstrip_by_suffix p (rev s)) as [d Hd].
  exists (rev d). rewrite <- rev_app_distr, <- Hd, rev_involutive.
  reflexivity.
Qed.

Lemma strip_trimmed (s : text) : Py.strip s <> [] -> trimmed (Py.strip s).
Proof.
  intros Hne. split; [exact Hne|]. split.
  - intros c rest H. unfold Py.strip in *.
    destruct (rstrip_by_prefix Py.isspace (Py.lstrip_by Py.isspace s))
      as [d Hd].
    rewrite H in Hd. cbn [app] in Hd.
    exact (lstrip_by_head _ _ _ _ Hd).
  - intros front c H. exact (rstrip_by_last _ _ _ _ H).
Qed.

Lemma flush_trimmed (cur : text) (l : list text) :
  (forall p, In p l -> trimmed p) ->
  forall p, In p (flush cur l) -> trimmed p.
Proof.
  intros Hl p. unfold flush.
  destruct (Py.strip cur) as [|c t] eqn:Hs; [apply Hl|].
  rewrite in_app_iff. intros [H|[<-|[]]]; [auto|].
  rewrite <- Hs. apply strip_trimmed. rewrite Hs. discriminate.
Qed.

Lemma split_step_param_list prev char st :
  param_list (split_step prev char st) = param_list st
  \/ param_list (split_step prev char st)
     = flush (current_param st) (param_list st).
Proof.
  unfold split_step.
  repeat match goal with
         | |- context [if ?b then _ else _] => destruct b
         end; cbn [param_list]; auto.
Qed.

Lemma split_loop_trimmed : forall param_str prev st,
  (forall p, In p (param_list st) -> trimmed p) ->
  forall p, In p (param_list (split_loop prev param_str st)) -> trimmed p.
Proof.
  induction param_str as [|c s IH]; intros prev st Hst; cbn [split_loop].
  - exact Hst.
  - apply IH. destruct (split_step_param_list prev c st) as [-> | ->].
    + exact Hst.
    + apply flush_trimmed, Hst.
Qed.

(** X3: every argument that a splitter returns is not empty and has no
    white space at its ends, in both scripts. *)
Theorem split_params_trimmed (param_str p : text) :
  In p (split_params param_str)
  \/ In p (LoggingParameterFixer.split_params param_str) ->
  trimmed p.
Proof.
  rewrite split_params_agree. intros H.
  assert (Hin : In p (split_params param_str)) by tauto. clear H.
  unfold split_params in Hin. revert p Hin.
  apply flush_trimmed, split_loop_trimmed. intros p [].
Qed.

Lemma split_params_trimmed_witness : trimmed (txt "Compute(a, b)").
Proof.
  apply (split_params_trimmed (txt "  Compute(a, b) ,, ex ") (txt "Compute(a, b)")).
  left. vm_compute. left; reflexivity.
Defined.

(** X4: the two scripts split every text into the same arguments. *)
Theorem splitters_agree (param_str : text) :
  LoggingParameterFixer.split_params param_str = split_params param_str.
Proof. exact (split_params_agree param_str). Qed.

Lemma split_comma_app : forall cur s,
  ~ In ","%char cur ->
  Py.split ","%char (cur ++ s)
  = match Py.split ","%char s with
    | f :: r => (cur ++ f) :: r
    | [] => [cur]
    end.
Proof.
  induction cur as [|x cur IH]; intros s Hc; cbn [app].
  - destruct (Py.split ","%char s) eqn:Hs; [|reflexivity].
    destruct s as [|y s]; cbn [Py.split] in Hs; [discriminate|].
    destruct (Ascii.eqb y ","%char); [discriminate|].
    destruct (Py.split ","%char s); discriminate.
  - cbn [Py.split].
    destruct (Ascii.eqb_spec x ","%char) as [->|_].
    + exfalso. apply Hc. left; reflexivity.
    + rewrite IH by (intros H; apply Hc; right; exact H).
      destruct (Py.split ","%char s); reflexivity.
Qed.

Lemma flush_filter (cur : text) (l : list text) :
  flush cur l = l ++ List.filter nonempty [Py.strip cur].
Proof.
  unfold flush. cbn [List.filter].
  destruct (Py.strip cur); cbn [nonempty]; [rewrite app_nil_r|]; reflexivity.
Qed.

(** Outside quotes and parentheses the loop cuts at every comma. *)
Lemma split_loop_plain : forall s prev st,
  in_quotes st = false -> paren_depth st = 0%Z ->
  free_of [dquote; "("%char; ")"%char] s ->
  ~ In ","%char (current_param st) ->
  flush (current_param (split_loop prev s st))
        (param_list (split_loop prev s st))
  = param_list st ++ comma_split (current_param st ++ s).
Proof.
  induction s as [|c s IH]; intros prev st Hq Hd Hs Hcur; cbn [split_loop].
  - rewrite app_nil_r. unfold comma_split.
    pose proof (split_comma_app (current_param st) [] Hcur) as E.
    cbn [Py.split] in E. rewrite !app_nil_r in E. rewrite E.
    cbn [map]. apply flush_filter.
  - assert (Hs' : free_of [dquote; "("%char; ")"%char] s).
    { intros x Hx Hin. apply (Hs x Hx). right; exact Hin. }
    assert (Hc1 : Ascii.eqb c dquote = false).
    { apply Ascii.eqb_neq. intros ->.
      apply (Hs dquote); [left; reflexivity|left; reflexivity]. }
    assert (Hc2 : Ascii.eqb c "(" = false).
    { apply Ascii.eqb_neq. intros ->.
      apply (Hs "("%char); [right; left; reflexivity|left; reflexivity]. }
    assert (Hc3 : Ascii.eqb c ")" = false).
    { apply Ascii.eqb_neq. intros ->.
      apply (Hs ")"%char);
        [right; right; left; reflexivity|left; reflexivity]. }
    unfold split_step at 1 2. rewrite Hc1, Hc2, Hc3, Hq, Hd.
    cbn [andb negb Z.eqb].
    destruct (Ascii.eqb_spec c ","%char) as [->|Hne]; cbn [andb].
    + rewrite IH; cbn [in_quotes paren_depth current_param param_list];
        auto.
      rewrite flush_filter, <- app_assoc. f_equal.
      unfold comma_split.
      rewrite (split_comma_app (current_param st) (","%char :: s) Hcur).
      cbn [app Py.split]. rewrite Ascii.eqb_refl.
      rewrite app_nil_r. cbn [map List.filter].
      destruct (nonempty (Py.strip (current_param st))); reflexivity.
    + rewrite IH; cbn [in_quotes paren_depth current_param param_list];
        auto.
      * rewrite <- app_assoc. reflexivity.
      * rewrite in_app_iff. intros [H|[H|[]]]; [auto|congruence].
Qed.

(** X5: on a text without quotes and parentheses both splitters return
    the pieces between the commas, trimmed, the empty ones left out. *)
Theorem split_params_plain (param_str : text) :
  free_of [dquote; "("%char; ")"%char] param_str ->
  split_params param_str = comma_split param_str
  /\ LoggingParameterFixer.split_params param_str = comma_split param_str.
Proof.
  intros H. rewrite split_params_agree.
  assert (Hs : split_params param_str = comma_split param_str);
    [|split; exact Hs].
  unfold split_params.
  rewrite (split_loop_plain param_str None split_init); auto.
Qed.

Lemma split_params_plain_witness :
  split_params (txt " x, order.Id ,, ex ")
  = [txt "x"; txt "order.Id"; txt "ex"].
Proof.
  apply (split_params_plain (txt " x, order.Id ,, ex ")).
  intros c Hc. each_case Hc; vm_compute; intuition discriminate.
Defined.

End SplitterResults.

(** ** Texts without a call on a receiver *)

Section WithoutReceiver.

Import Shapes.

Lemma search_none_without_call (method : text) (b : regex) (line : text) :
  (forall recv a t,
      In recv receivers -> line <> a ++ recv ++ method ++ "("%char :: t) ->
  search (Seq (call_prefix method) b) line = None.
Proof.
  intros H. unfold search. apply search_from_nowhere.
  intros a s p ->.
  destruct (match_here (Seq (call_prefix method) b) p s)
    as [[rest e]|] eqn:Hm; [|reflexivity].
  apply match_here_call_prefix_taken in Hm as (recv & t & Hr & ->).
  exfalso. apply (H recv a (t ++ rest) Hr).
  rewrite <- !app_assoc. reflexivity.
Qed.

(** [s.split(c)] and [c.join] are inverse to each other on the text. *)
Lemma join_split (c : ascii) : forall s, Py.join [c] (Py.split c s) = s.
Proof.
  induction s as [|x s IH]; [reflexivity|].
  cbn [Py.split]. destruct (Ascii.eqb_spec x c) as [->|_].
  - destruct (Py.split c s) as [|l ls] eqn:Hs.
    + destruct s as [|y s']; cbn [Py.split] in Hs; [discriminate|].
      destruct (Ascii.eqb y c); [discriminate|].
      destruct (Py.split c s'); discriminate.
    + cbn [Py.join app]. f_equal. exact IH.
  - destruct (Py.split c s) as [|l ls] eqn:Hs.
    + destruct s as [|y s']; cbn [Py.split] in Hs; [discriminate|].
      destruct (Ascii.eqb y c); [discriminate|].
      destruct (Py.split c s'); discriminate.
    + rewrite <- IH. destruct ls; reflexivity.
Qed.

(** The first line is the start of the text. *)
Lemma split_first (c : ascii) : forall s,
  exists l ls r, Py.split c s = l :: ls /\ s = l ++ r.
Proof.
  induction s as [|x s (l & ls & r & Hs & Hr)]; cbn [Py.split].
  - exists [], [], []. auto.
  - destruct (Ascii.eqb x c).
    + exists [], (Py.split c s), (x :: s). auto.
    + rewrite Hs. exists (x :: l), ls, r. split; [reflexivity|].
      cbn [app]. f_equal. exact Hr.
Qed.

(** Every line is a part of the text. *)
Lemma split_part (c : ascii) : forall s l,
  In l (Py.split c s) -> exists a b, s = a ++ l ++ b.
Proof.
  induction s as [|x s IH]; intros l Hin; cbn [Py.split] in Hin.
  - destruct Hin as [<-|[]]. exists [], []. reflexivity.
  - destruct (Ascii.eqb x c).
    + destruct Hin as [<-|Hin].
      * exists [], (x :: s). reflexivity.
      * destruct (IH l Hin) as (a & b & ->). exists (x :: a), b. reflexivity.
    + destruct (split_first c s) as (l0 & ls & r & Hs & Hr).
      rewrite Hs in Hin, IH. destruct Hin as [<-|Hin].
      * exists [], r. cbn [app]. f_equal. exact Hr.
      * destruct (IH l (or_intror Hin)) as (a & b & ->).
        exists (x :: a), b. reflexivity.
Qed.

Lemma occurs_false (p : text) : forall s,
  Calls.occurs p s = false -> forall a t, s <> a ++ p ++ t.
Proof.
  induction s as [|x s IH]; intros H a t Heq; cbn [Calls.occurs] in H;
    apply orb_false_iff in H as [Hst Hrest].
  - symmetry in Heq. apply app_eq_nil in Heq as [-> Heq].
    apply app_eq_nil in Heq as [-> ->]. discriminate.
  - destruct a as [|y a]; cbn [app] in Heq.
    + rewrite Heq, starts_with_app in Hst. discriminate.
    + injection Heq as _ Heq. exact (IH Hrest a t Heq).
Qed.

Lemma has_call_false (s : text) :
  Calls.has_call s = false ->
  forall recv method a t,
    In recv receivers -> In method ComprehensiveLoggingFixer.logging_methods ->
    s <> a ++ recv ++ method ++ "("%char :: t.
Proof.
  unfold Calls.has_call. intros H recv method a t Hr Hm Heq.
  assert (Ho : Calls.occurs (recv ++ method ++ ["("%char]) s = false).
  { destruct (Calls.occurs (recv ++ method ++ ["("%char]) s) eqn:Ho;
      [|reflexivity].
    rewrite <- H. symmetry. apply existsb_exists. exists recv.
    split; [exact Hr|]. apply existsb_exists. exists method. auto. }
  apply (occurs_false _ _ Ho a t). rewrite Heq, <- !app_assoc. reflexivity.
Qed.

Lemma fix_line_without_call (line : text) : forall methods n,
  (forall method, In method methods ->
     LoggingParameterFixer.fix_logging_call line method = (line, false)) ->
  fold_left
    (fun (acc : text * nat) method =>
       let (line, changes) := acc in
       let (new_line, changed) :=
         LoggingParameterFixer.fix_logging_call line method in
       if changed then (new_line, changes + 1) else (line, changes))
    methods (line, n)
  = (line, n).
Proof.
  induction methods as [|method methods IH]; intros n H; cbn [fold_left];
    [reflexivity|].
  rewrite (H method) by (left; reflexivity).
  apply IH. intros m Hm. apply H. right; exact Hm.
Qed.

Lemma fix_lines_without_call : forall lines,
  (forall line, In line lines ->
     LogErrorFixer.fix_one_line line = Some (line, false)) ->
  LogErrorFixer.fix_lines lines = Some (lines, 0).
Proof.
  induction lines as [|line lines IH]; intros H; cbn [LogErrorFixer.fix_lines];
    [reflexivity|].
  rewrite (H line) by (left; reflexivity).
  rewrite IH; [reflexivity|]. intros l Hl. apply H. right; exact Hl.
Qed.

(** X6: a text in which no receiver is followed by a method name and an
    opening parenthesis goes through the three rewriters as it is, with no
    change counted. *)
Theorem without_call_unchanged (content : text) :
  Calls.has_call content = false ->
  ComprehensiveLoggingFixer.fix_logging_call content = (content, 0)
  /\ LoggingParameterFixer.fix_line content = (content, 0)
  /\ LogErrorFixer.fix_logerror_patterns content = Some (content, 0).
Proof.
  intros H. pose proof (has_call_false content H) as Hno.
  split; [|split].
  - apply no_receiver_no_change. intros recv method a b Hr Hm.
    apply Hno; assumption.
  - unfold LoggingParameterFixer.fix_line.
    apply fix_line_without_call. intros method Hm.
    unfold LoggingParameterFixer.fix_logging_call,
      LoggingParameterFixer.pattern.
    rewrite search_none_without_call; [reflexivity|].
    intros recv a t Hr. apply Hno; assumption.
  - unfold LogErrorFixer.fix_logerror_patterns.
    rewrite fix_lines_without_call.
    + rewrite join_split. reflexivity.
    + intros line Hl. apply split_part in Hl as (a0 & b0 & Hc).
      assert (Hline : forall recv a t,
                 In recv receivers ->
                 line <> a ++ recv ++ txt "LogError" ++ "("%char :: t).
      { intros recv a t Hr ->.
        apply (Hno recv (txt "LogError") (a0 ++ a) (t ++ b0) Hr).
        - left; reflexivity.
        - rewrite Hc, <- !app_assoc. reflexivity. }
      unfold LogErrorFixer.fix_one_line, LogErrorFixer.try_pattern1,
        LogErrorFixer.try_pattern2, LogErrorFixer.try_pattern3,
        LogErrorFixer.pattern1, LogErrorFixer.pattern2,
        LogErrorFixer.pattern3, LogErrorFixer.prefix_re.
      rewrite !search_none_without_call by exact Hline. reflexivity.
Qed.

Lemma without_call_unchanged_witness :
  let content :=
    txt "LogError('A {a}', a, ex);" ++ [newline]
    ++ txt "logger.LogInfo('B {b}', b);" in
  ComprehensiveLoggingFixer.fix_logging_call content = (content, 0)
  /\ LoggingParameterFixer.fix_line content = (content, 0)
  /\ LogErrorFixer.fix_logerror_patterns content = Some (content, 0).
Proof.
  intros content. apply (without_call_unchanged content).
  vm_compute. reflexivity.
Defined.

(** X7: whatever [re.search] finds for a pattern of one of the three
    scripts starts with a receiver, the method name and an opening
    parenthesis: a call without a receiver is never a candidate. *)
Theorem candidates_start_with_receiver (method line : text) (m : Match) :
  search (ComprehensiveLoggingFixer.pattern method) line = Some m
  \/ search (LoggingParameterFixer.pattern method) line = Some m
  \/ (method = txt "LogError"
      /\ exists r,
           In r [LogErrorFixer.pattern1; LogErrorFixer.pattern2;
                 LogErrorFixer.pattern3]
           /\ search r line = Some m) ->
  exists recv t,
    In recv receivers /\ whole m = recv ++ method ++ "("%char :: t.
Proof.
  assert (Hgen : forall b,
             search (Seq (call_prefix method) b) line = Some m ->
             exists recv t,
               In recv receivers /\ whole m = recv ++ method ++ "("%char :: t).
  { intros b H. unfold search in H.
    apply search_from_inv in H as (sk & p' & _ & _ & Hm).
    apply match_here_call_prefix_taken in Hm as (recv & t & Hr & Ht).
    apply app_inv_tail in Ht. eauto. }
  intros [H|[H|(-> & r & Hr & H)]].
  - exact (Hgen _ H).
  - exact (Hgen _ H).
  - revert Hgen. each_case Hr; intros Hgen; exact (Hgen _ H).
Qed.

Lemma candidates_start_with_receiver_witness :
  exists recv t,
    In recv receivers
    /\ txt "_logger.LogInfo('Value is {x}', x, ex)"
       = recv ++ txt "LogInfo" ++ "("%char :: t.
Proof.
  apply (candidates_start_with_receiver
           (txt "LogInfo") (txt "  _logger.LogInfo('Value is {x}', x, ex);")
           {| before := txt "  ";
              whole := txt "_logger.LogInfo('Value is {x}', x, ex)";
              groups := [(4, txt ")"); (3, txt ", x, ex");
                         (2, txt "'Value is {x}'");
                         (1, txt "_logger.LogInfo(")];
              after := txt ";" |}).
  left. vm_compute. reflexivity.
Defined.

End WithoutReceiver.

(** ** The characters of a captured group *)

Section GroupCharacters.

Import Classes.

Context {R : Type}.

(** What a pattern consumes is taken by its character classes, and what
    one of its groups captures is taken by the classes inside the group. *)
Lemma run_takes (r : regex) : forall prev s e (k : @cont R) x,
  run r prev s e k = Some x ->
  exists prev' s' e' c,
    s = c ++ s' /\ k prev' s' e' = Some x
    /\ (forall ch, In ch c -> takes r ch = true)
    /\ (forall i t, group e' i = Some t ->
          group e i = Some t
          \/ forall ch, In ch t -> group_takes r i ch = true).
Proof.
  induction r as [|p|a IHa b IHb|a IHa b IHb|a IHa|a IHa|i a IHa|];
    intros prev s e k x H; cbn [run] in H.
  - exists prev, s, e, []. repeat split; auto; try (intros ch []).
  - destruct s as [|c s1]; [discriminate|].
    destruct (p c) eqn:Hp; [|discriminate].
    exists (Some c), s1, e, [c]. repeat split; auto.
    intros ch [<-|[]]. exact Hp.
  - apply IHa in H as (p1 & s1 & e1 & c1 & -> & H & T1 & G1).
    apply IHb in H as (p2 & s2 & e2 & c2 & -> & H & T2 & G2).
    exists p2, s2, e2, (c1 ++ c2). rewrite <- app_assoc.
    repeat split; auto.
    + intros ch Hch. cbn [takes]. apply in_app_iff in Hch as [Hch|Hch];
        [rewrite (T1 ch Hch)|rewrite (T2 ch Hch), orb_true_r]; reflexivity.
    + intros i t Ht. cbn [group_takes].
      destruct (G2 i t Ht) as [Ht1|Ht2].
      * destruct (G1 i t Ht1) as [Ht0|Ht1']; [left; exact Ht0|].
        right. intros ch Hch. rewrite (Ht1' ch Hch). reflexivity.
      * right. intros ch Hch. rewrite (Ht2 ch Hch), orb_true_r. reflexivity.
  - destruct (run a prev s e k) as [y|] eqn:Ha.
    + injection H as ->.
      apply IHa in Ha as (p1 & s1 & e1 & c1 & -> & H & T1 & G1).
      exists p1, s1, e1, c1. repeat split; auto.
      * intros ch Hch. cbn [takes]. rewrite (T1 ch Hch). reflexivity.
      * intros i t Ht. cbn [group_takes].
        destruct (G1 i t Ht) as [Ht0|Ht1]; [left; exact Ht0|].
        right. intros ch Hch. rewrite (Ht1 ch Hch). reflexivity.
    + apply IHb in H as (p1 & s1 & e1 & c1 & -> & H & T1 & G1).
      exists p1, s1, e1, c1. repeat split; auto.
      * intros ch Hch. cbn [takes]. rewrite (T1 ch Hch), orb_true_r.
        reflexivity.
      * intros i t Ht. cbn [group_takes].
        destruct (G1 i t Ht) as [Ht0|Ht1]; [left; exact Ht0|].
        right. intros ch Hch. rewrite (Ht1 ch Hch), orb_true_r. reflexivity.
  - remember (List.length s) as n eqn:Hn. clear Hn.
    revert prev s e H. induction n as [|n IHn]; intros prev s e H.
    + exists prev, s, e, []. repeat split; auto; try (intros ch []).
    + match type of H with
      | match ?t with _ => _ end = _ => destruct t as [y|] eqn:Ha
      end.
      * injection H as ->.
        apply IHa in Ha as (p1 & s1 & e1 & c1 & -> & H & T1 & G1).
        destruct (List.length s1 <? List.length (c1 ++ s1)); [|discriminate].
        apply IHn in H as (p2 & s2 & e2 & c2 & -> & H & T2 & G2).
        exists p2, s2, e2, (c1 ++ c2). rewrite <- app_assoc.
        repeat split; auto.
        -- intros ch Hch. cbn [takes] in *.
           apply in_app_iff in Hch as [Hch|Hch]; auto.
        -- intros i t Ht. cbn [group_takes] in *.
           destruct (G2 i t Ht) as [Ht1|Ht2]; [|right; exact Ht2].
           exact (G1 i t Ht1).
      * exists prev, s, e, []. repeat split; auto; try (intros ch []).
  - remember (List.length s) as n eqn:Hn. clear Hn.
    revert prev s e H. induction n as [|n IHn]; intros prev s e H.
    + destruct (k prev s e) as [y|] eqn:Hk; [|discriminate].
      injection H as ->. exists prev, s, e, [].
      repeat split; auto; try (intros ch []).
    + destruct (k prev s e) as [y|] eqn:Hk.
      * injection H as ->. exists prev, s, e, [].
        repeat split; auto; try (intros ch []).
      * apply IHa in H as (p1 & s1 & e1 & c1 & -> & H & T1 & G1).
        destruct (List.length s1 <? List.length (c1 ++ s1)); [|discriminate].
        apply IHn in H as (p2 & s2 & e2 & c2 & -> & H & T2 & G2).
        exists p2, s2, e2, (c1 ++ c2). rewrite <- app_assoc.
        repeat split; auto.
        -- intros ch Hch. cbn [takes] in *.
           apply in_app_iff in Hch as [Hch|Hch]; auto.
        -- intros j t Ht. cbn [group_takes] in *.
           destruct (G2 j t Ht) as [Ht1|Ht2]; [|right; exact Ht2].
           exact (G1 j t Ht1).
  - apply IHa in H as (p1 & s1 & e1 & c1 & -> & H & T1 & G1).
    rewrite firstn_consumed in H.
    exists p1, s1, ((i, c1) :: e1), c1. repeat split; auto.
    intros j t Ht. cbn [group group_takes] in *.
    destruct (Nat.eqb_spec j i) as [->|Hne].
    + injection Ht as <-. right. intros ch Hch.
      rewrite (T1 ch Hch). reflexivity.
    + cbn [andb orb]. exact (G1 j t Ht).
  - destruct (at_boundary prev s); [|discriminate].
    exists prev, s, e, []. repeat split; auto; try (intros ch []).
Qed.

End GroupCharacters.

Section CapturedText.

Import Classes.

Lemma group_takes_Lit (l : text) (i : nat) (c : ascii) :
  group_takes (Lit l) i c = false.
Proof. induction l as [|x l IH]; cbn [Lit group_takes orb]; auto. Qed.

Lemma group_takes_call_prefix (method : text) (i : nat) (c : ascii) :
  i <> 1 -> group_takes (call_prefix method) i c = false.
Proof.
  intros Hi. unfold call_prefix, receiver_re. cbn [group_takes].
  rewrite !group_takes_Lit.
  destruct (Nat.eqb_spec i 1) as [->|_]; [congruence|reflexivity].
Qed.

(** The characters of group [i] of a match found by [match_here]. *)
Lemma match_here_group (r : regex) prev s rest e (i : nat) (ch : ascii) :
  match_here r prev s = Some (rest, e) ->
  group_takes r i ch = false ->
  ~ In ch (match group e i with Some t => t | None => [] end).
Proof.
  intros H Hch. unfold match_here in H.
  apply run_takes in H as (p' & s' & e' & c & _ & Hk & _ & G).
  injection Hk as _ ->.
  destruct (group e i) as [t|] eqn:Ht; [|intros []].
  destruct (G i t Ht) as [Hold|Hnew]; [discriminate|].
  intros Hin. rewrite (Hnew ch Hin) in Hch. discriminate.
Qed.

(** X8: the parameter text that the pattern of ComprehensiveLoggingFixer
    captures has no closing parenthesis, in any match that [re.sub]
    visits: the splitter of this script never sees a nested call with its
    closing parenthesis. *)
Theorem parameters_without_closing_parenthesis
    (method content : text) (m : Match) :
  In m (fst (finditer (ComprehensiveLoggingFixer.pattern method) content)) ->
  ~ In ")"%char (grp m 3).
Proof.
  intros Hin. unfold finditer in Hin.
  destruct (scan _ _ _ content) as [ms rest] eqn:Hsc. cbn [fst] in Hin.
  destruct (scan_matches _ _ _ _ _ _ m Hsc Hin) as (p' & Hm).
  unfold grp. apply (match_here_group _ _ _ _ _ 3 ")"%char Hm).
  unfold ComprehensiveLoggingFixer.pattern. cbn [group_takes].
  rewrite group_takes_call_prefix by discriminate.
  reflexivity.
Qed.

Lemma parameters_without_closing_parenthesis_witness :
  ~ In ")"%char (txt ", Compute(a, b").
Proof.
  apply (parameters_without_closing_parenthesis
           (txt "LogInfo")
           (txt "_logger.LogInfo('Nested {v}', Compute(a, b), ex)")
           {| before := [];
              whole := txt "_logger.LogInfo('Nested {v}', Compute(a, b)";
              groups := [(4, txt ")"); (3, txt ", Compute(a, b");
                         (2, txt "'Nested {v}'");
                         (1, txt "_logger.LogInfo(")];
              after := txt ", ex)" |}).
  vm_compute. left; reflexivity.
Defined.

(** X9: the values that the first two patterns of LogErrorFixer capture
    have no comma: an argument with a comma of its own, such as a nested
    call with two arguments, is never taken whole. *)
Theorem logerror_groups (line : text) (m : Match) :
  search LogErrorFixer.pattern1 line = Some m
  \/ search LogErrorFixer.pattern2 line = Some m ->
  ~ In ","%char (grp m 4) /\ ~ In ","%char (grp m 6).
Proof.
  intros H.
  assert (Hm : exists r p' s,
             (r = LogErrorFixer.pattern1 \/ r = LogErrorFixer.pattern2)
             /\ match_here r p' s = Some (after m, groups m)).
  { destruct H as [H|H]; unfold search in H;
      apply search_from_inv in H as (sk & p' & _ & _ & Hm); eauto 7. }
  destruct Hm as (r & p' & s & Hr & Hm). unfold grp.
  assert (Hgen : forall i ch,
             group_takes LogErrorFixer.pattern1 i ch = false ->
             group_takes LogErrorFixer.pattern2 i ch = false ->
             ~ In ch (match group (groups m) i with
                      | Some t => t | None => [] end)).
  { intros i ch H1 H2. apply (match_here_group r p' s (after m));
      [exact Hm|]. destruct Hr as [-> | ->]; assumption. }
  repeat split; apply Hgen; reflexivity.
Qed.

Lemma logerror_groups_witness :
  ~ In ","%char (txt "value") /\ ~ In ","%char (txt "ex").
Proof.
  apply (logerror_groups
           (txt "_logger.LogError('Message {P}', value, ex);")
           {| before := [];
              whole := txt "_logger.LogError('Message {P}', value, ex";
              groups := [(6, txt "ex"); (5, txt ", "); (4, txt "value");
                         (3, txt ", "); (2, txt "Message {P}");
                         (1, txt "_logger.LogError(")];
              after := txt ");" |}).
  left. vm_compute. reflexivity.
Defined.

End CapturedText.

(** ** What [process_file] does to the files *)

Section FileEffects.

Import IO Effects.

(** One round of the loop of [fix_logerror_patterns] with its printing. *)
Lemma fix_lines_from_steps (i : nat) (line : text) (lines : list text)
    (w : world) :
  LogErrorFiles.fix_lines_from i (line :: lines) w
  = match LogErrorFixer.fix_one_line line with
    | None => (None, w)
    | Some (l, changed) =>
        match (if negb changed && LogErrorFiles.complex_pattern line
               then print (ComplexPattern (i + 1) (Py.strip line))
               else ret tt) w with
        | (None, w1) => (None, w1)
        | (Some _, w1) =>
            match LogErrorFiles.fix_lines_from (S i) lines w1 with
            | (None, w2) => (None, w2)
            | (Some (ls, n), w2) =>
                (Some (l :: ls, if changed then S n else n), w2)
            end
        end
    end.
Proof.
  cbn [LogErrorFiles.fix_lines_from].
  destruct (LogErrorFixer.fix_one_line line) as [[l changed]|];
    [|reflexivity].
  unfold bind at 1.
  destruct ((if negb changed && LogErrorFiles.complex_pattern line
             then print (ComplexPattern (i + 1) (Py.strip line))
             else ret tt) w) as [[[]|] w1];
    [|reflexivity].
  unfold bind, ret.
  destruct (LogErrorFiles.fix_lines_from (S i) lines w1)
    as [[[ls n]|] w2]; reflexivity.
Qed.

(** The loop of [fix_logerror_patterns] with its printing: the files are
    not touched, what is returned is what [fix_lines] computes, and on a
    console that takes every line the loop raises only where [fix_lines]
    does. *)
Lemma fix_lines_from_effect : forall (lines : list text) (i : nat)
    (w : world),
  let run := LogErrorFiles.fix_lines_from i lines w in
  only_printed w (snd run)
  /\ (fst run = None \/ fst run = LogErrorFixer.fix_lines lines)
  /\ (accepts_all w -> fst run = LogErrorFixer.fix_lines lines)
  /\ (LogErrorFixer.fix_lines lines = None -> fst run = None).
Proof.
  induction lines as [|line lines IH]; intros i w; cbv zeta.
  - cbn. split; [apply only_printed_refl|]. auto.
  - rewrite fix_lines_from_steps. cbn [LogErrorFixer.fix_lines].
    destruct (LogErrorFixer.fix_one_line line) as [[l changed]|].
    2:{ cbn [fst snd]. split; [apply only_printed_refl|]. auto. }
    set (step := if negb changed && LogErrorFiles.complex_pattern line
                 then print (ComplexPattern (i + 1) (Py.strip line))
                 else ret tt).
    assert (Hstep : only_printed w (snd (step w))
                    /\ (accepts_all w -> fst (step w) = Some tt)).
    { subst step. destruct (negb changed && _).
      - destruct (print_effect (ComplexPattern (i + 1) (Py.strip line)) w)
          as [H1 H2].
        split; [exact H1|]. intros H. exact (H2 (H _)).
      - split; [apply only_printed_refl|reflexivity]. }
    destruct Hstep as [Hp Hr].
    destruct (step w) as [[[]|] w1]; cbn [fst snd] in *.
    + destruct (IH (S i) w1) as (Hp' & Hor & Hr' & Hn).
      destruct (LogErrorFiles.fix_lines_from (S i) lines w1)
        as [[[ls n]|] w2]; cbn [fst snd] in *.
      * split; [eapply only_printed_trans; eassumption|].
        destruct Hor as [Hor|Hor]; [discriminate|]. rewrite <- Hor.
        split; [right; reflexivity|]. split; [reflexivity|discriminate].
      * split; [eapply only_printed_trans; eassumption|].
        split; [left; reflexivity|]. split.
        -- intros Hall.
           rewrite <- Hr' by (eapply accepts_all_kept; eassumption).
           reflexivity.
        -- intros _. reflexivity.
    + split; [exact Hp|]. split; [left; reflexivity|]. split.
      * intros Hall. specialize (Hr Hall). discriminate.
      * intros _. reflexivity.
Qed.

Lemma fix_content_effect (content : text) (w : world) :
  let run := LogErrorFiles.fix_content content w in
  only_printed w (snd run)
  /\ (fst run = None
      \/ fst run = LogErrorFixer.fix_logerror_patterns content)
  /\ (accepts_all w -> fst run = LogErrorFixer.fix_logerror_patterns content)
  /\ (LogErrorFixer.fix_logerror_patterns content = None -> fst run = None).
Proof.
  cbv zeta.
  unfold LogErrorFiles.fix_content, LogErrorFixer.fix_logerror_patterns,
    bind, ret.
  destruct (fix_lines_from_effect (Py.split newline content) 0 w)
    as (Hp & Hor & Hr & Hn).
  destruct (LogErrorFiles.fix_lines_from 0 _ w) as [[[ls n]|] w1];
    cbn [fst snd] in *.
  - split; [exact Hp|].
    destruct Hor as [Hor|Hor]; [discriminate|]. rewrite <- Hor.
    split; [right; reflexivity|]. split; [reflexivity|discriminate].
  - split; [exact Hp|]. split; [left; reflexivity|]. split.
    + intros Hall. rewrite <- (Hr Hall). reflexivity.
    + intros _. reflexivity.
Qed.

(** [process_file] of LogErrorFixer, step by step. *)
Lemma logerror_process_file_steps (filepath : string) (w : world) :
  let handler := (_ <- print (Failed filepath) ;; ret false) in
  LogErrorFiles.process_file filepath w
  = match files w !! filepath with
    | None => handler w
    | Some disk =>
        match LogErrorFiles.fix_content (universal_newlines disk) w with
        | (None, w1) => handler w1
        | (Some (fixed, 0), w1) =>
            match print (NoChanges filepath) w1 with
            | (Some _, w2) => (Some false, w2)
            | (None, w2) => handler w2
            end
        | (Some (fixed, S n), w1) =>
            match (_ <- write_text
                          (with_added_suffix filepath ".bak_logerror")
                          (universal_newlines disk) ;;
                   _ <- write_text filepath fixed ;;
                   _ <- print (Fixed (S n) filepath) ;;
                   ret true) w1 with
            | (Some b, w2) => (Some b, w2)
            | (None, w2) => handler w2
            end
        end
    end.
Proof.
  intros handler. unfold LogErrorFiles.process_file, try_except.
  fold handler. unfold bind at 1, read_text.
  destruct (files w !! filepath) as [disk|]; [|reflexivity].
  unfold bind at 1.
  destruct (LogErrorFiles.fix_content _ w)
    as [[[fixed [|n]]|] w1]; cbn [Nat.ltb Nat.leb]; try reflexivity.
  unfold bind at 1, ret.
  destruct (print (NoChanges filepath) w1) as [[[]|] w2]; reflexivity.
Qed.

Lemma logerror_process_file_effect (filepath : string) (w : world) :
  let backup := with_added_suffix filepath ".bak_logerror" in
  let run := LogErrorFiles.process_file filepath w in
  ((files (snd run) = files w /\ log (snd run) = log w
    /\ fst run <> Some true)
   \/ exists disk fixed n,
        files w !! filepath = Some disk
        /\ LogErrorFixer.fix_logerror_patterns (universal_newlines disk)
           = Some (fixed, S n)
        /\ rewritten w (snd run) (fst run) backup filepath
             (universal_newlines disk) fixed)
  /\ (accepts_all w -> exists modified, fst run = Some modified).
Proof.
  intros backup run. subst run.
  assert (Hne : backup <> filepath)
    by (apply backup_is_another_file; discriminate).
  rewrite logerror_process_file_steps. cbv zeta. fold backup.
  destruct (files w !! filepath) as [disk|] eqn:Hread.
  2:{ destruct (handler_effect filepath w)
        as ((H1 & H2 & _) & Hr & Hret).
      split; [left; auto|].
      intros Hall. eexists. apply Hret, Hall. }
  destruct (fix_content_effect (universal_newlines disk) w)
    as (Hp & Hor & Hret & _).
  destruct (LogErrorFiles.fix_content _ w) as [r1 w1]; cbn [fst snd] in *.
  pose proof Hp as (P1 & P2 & P3 & P4 & P5 & P6).
  destruct r1 as [[fixed changes]|].
  2:{ destruct (handler_effect filepath w1)
        as ((H1 & H2 & _) & Hr & Hret').
      split; [left; repeat split; congruence|].
      intros Hall. eexists. apply Hret'. rewrite P6. apply Hall. }
  destruct Hor as [Hor|Hor]; [discriminate|]. symmetry in Hor.
  destruct changes as [|n].
  - destruct (print_effect (NoChanges filepath) w1) as [Q1 Q2].
    destruct (print (NoChanges filepath) w1) as [[[]|] w2];
      cbn [fst snd] in *.
    + pose proof (only_printed_trans _ _ _ Hp Q1) as (T1 & T2 & _).
      split; [left; repeat split; auto; discriminate|].
      intros _. eexists. reflexivity.
    + pose proof (only_printed_trans _ _ _ Hp Q1)
        as (T1 & T2 & T3 & T4 & T5 & T6).
      destruct (handler_effect filepath w2) as ((H1 & H2 & _) & Hr & Hret').
      split; [left; repeat split; congruence|].
      intros Hall. eexists. apply Hret'. rewrite T6. apply Hall.
  - destruct (backup_and_write backup filepath (universal_newlines disk)
                fixed (Fixed (S n) filepath) w1 Hne)
      as (Hrw & Hnf & Hgo & Hcon).
    assert (Hw : forall p, written w1 p = written w p)
      by (intros p; unfold written; rewrite P3, P4; reflexivity).
    assert (He : forall p c, write_event w1 p c = write_event w p c)
      by (intros p c; unfold write_event; rewrite P3, P4, P5; reflexivity).
    unfold rewritten in Hrw. rewrite !Hw, !He, P1, P2, P5 in Hrw.
    destruct Hrw as (R1 & R2 & R3 & R4 & R5).
    match goal with
    | |- context [match ?t with (_, _) => _ end] =>
        destruct t as [[b|] w2] eqn:Htail
    end; cbn [fst snd] in *.
    + split; [|intros _; eexists; reflexivity].
      right. exists disk, fixed, n. split; [reflexivity|].
      split; [exact Hor|]. unfold rewritten.
      split; [exact R1|]. split; [exact R2|]. split; [exact R3|].
      split; [exact R4|exact R5].
    + destruct (handler_effect filepath w2) as ((H1 & H2 & _) & Hr & Hret').
      split.
      * right. exists disk, fixed, n. split; [reflexivity|].
        split; [exact Hor|]. unfold rewritten. rewrite H1, H2.
        split; [exact R1|]. split; [exact R2|]. split; [exact R3|].
        split; [exact R4|].
        intros Ht. exfalso. apply Hr. exact Ht.
      * intros Hall. eexists. apply Hret'. rewrite Hcon, P6. apply Hall.
Qed.

(** What is read from a file without carriage returns and written back on
    a platform whose line separator is the line feed is the text of the
    file. *)
Lemma newlines_round_trip : forall disk : text,
  ~ In carriage_return disk ->
  written_newlines [newline] (universal_newlines disk) = disk.
Proof.
  induction disk as [|c disk IH]; intros Hcr; [reflexivity|].
  cbn [universal_newlines].
  destruct (Ascii.eqb_spec c carriage_return) as [->|_].
  - exfalso. apply Hcr. left; reflexivity.
  - unfold written_newlines in *. cbn [flat_map].
    rewrite IH by (intros H; apply Hcr; right; exact H).
    destruct (Ascii.eqb_spec c newline) as [->|_]; reflexivity.
Qed.

(** From what a rewriting call has done: a file that has changed has its
    backup. *)
Lemma rewritten_backup (w w' : world) (result : option bool)
    (backup filepath : string) (content fixed : text) :
  rewritten w w' result backup filepath content fixed ->
  files w' !! filepath <> files w !! filepath ->
  files w' !! backup = Some (written_newlines (linesep w) content)
  /\ log w'
     = log w ++ [Wrote backup (written_newlines (linesep w) content);
                 write_event w filepath fixed].
Proof.
  intros (R1 & R2 & R3 & R4 & R5) Hch.
  destruct (written w backup) eqn:Hb.
  - split; [apply R3; reflexivity|]. rewrite R1. f_equal. f_equal.
    unfold write_event. unfold written in Hb.
    destruct (writable w backup); [|discriminate].
    destruct (breaks w backup); [discriminate|reflexivity].
  - exfalso. apply Hch, R4. reflexivity.
Qed.

Lemma rewritten_frame (w w' : world) (result : option bool)
    (backup filepath : string) (content fixed : text) :
  rewritten w w' result backup filepath content fixed ->
  (forall p, p <> filepath -> p <> backup -> files w' !! p = files w !! p)
  /\ log w'
     = log w ++ write_event w backup content
         :: (if written w backup then [write_event w filepath fixed]
             else []).
Proof. intros (R1 & R2 & _). split; assumption. Qed.

(** X10: [process_file] of ComprehensiveLoggingFixer (verbose or not) and
    of LoggingParameterFixer can change no file but the file itself and
    its backup, whether it returns or raises.  It attempts either no write
    at all or the backup first, and the file only when the backup has
    been written.  On a console that takes every line it returns. *)
Theorem process_file_frame (process_file : string -> io bool)
    (filepath : string) (w : world) :
  (exists verbose, process_file = ComprehensiveFiles.process_file verbose)
  \/ process_file = ParameterFiles.process_file ->
  let backup := with_added_suffix filepath ".bak_phase2" in
  let run := process_file filepath w in
  (forall path, path <> filepath -> path <> backup ->
     files (snd run) !! path = files w !! path)
  /\ (log (snd run) = log w
      \/ exists content fixed,
           log (snd run)
           = log w ++ write_event w backup content
               :: (if written w backup
                   then [write_event w filepath fixed] else []))
  /\ (accepts_all w -> exists modified, fst run = Some modified).
Proof.
  intros Hp backup run.
  assert (H : ((files (snd run) = files w /\ log (snd run) = log w
                /\ fst run <> Some true)
               \/ exists content fixed,
                    rewritten w (snd run) (fst run) backup filepath
                      content fixed)
              /\ (accepts_all w -> exists modified, fst run = Some modified)).
  { subst run. destruct Hp as [[verbose ->] | ->].
    - destruct (comprehensive_process_file_effect verbose filepath w)
        as ([Hn|(disk & fixed & n & _ & _ & Hrw)] & Hret & _).
      + split; [left; exact Hn|exact Hret].
      + split; [right; eauto|exact Hret].
    - apply parameter_process_file_effect. }
  destruct H as [[(Hf & Hl & _)|(content & fixed & Hrw)] Hret].
  - split; [intros path _ _; rewrite Hf; reflexivity|].
    split; [left; exact Hl|exact Hret].
  - destruct (rewritten_frame _ _ _ _ _ _ _ Hrw) as [Hfr Hlog].
    split; [exact Hfr|]. split; [right; eauto|exact Hret].
Qed.

Lemma process_file_frame_witness :
  let w := {| files := {[ "Service.cs"%string
                          := txt "_logger.LogInfo('A {a}', x);";
                          "Other.cs"%string := txt "// other" ]};
              writable := fun _ => true;
              breaks := fun path =>
                          if String.eqb path "Service.cs" then Some None
                          else None;
              linesep := [newline];
              console := fun o => negb (has_mark o);
              log := [];
              stdout := [] |} in
  let run := ParameterFiles.process_file "Service.cs"%string w in
  fst run = None
  /\ files (snd run) !! "Service.cs"%string = None
  /\ files (snd run) !! "Other.cs"%string = Some (txt "// other").
Proof.
  intros w run.
  destruct (process_file_frame ParameterFiles.process_file
              "Service.cs"%string w (or_intror eq_refl)) as (Hframe & _).
  split; [vm_compute; reflexivity|]. split; [vm_compute; reflexivity|].
  subst run. rewrite Hframe by discriminate. vm_compute. reflexivity.
Defined.

(** X11: [process_file] of ComprehensiveLoggingFixer does not touch a
    file before its backup is complete.  When the text of the file has
    changed, or the result is [True], the file could be read, the
    content as read has a rewritten call, the first write was the backup
    and went through, and the backup holds the content that was read,
    with the line separator of the platform for its line feeds.  For a
    file without carriage returns on a platform whose line separator is
    the line feed that is the old text of the file. *)
Theorem backup_then_overwrite (verbose : bool) (filepath : string)
    (w : world) :
  let backup := with_added_suffix filepath ".bak_phase2" in
  let run := ComprehensiveFiles.process_file verbose filepath w in
  files (snd run) !! filepath <> files w !! filepath
  \/ fst run = Some true ->
  exists disk fixed n,
    files w !! filepath = Some disk
    /\ ComprehensiveLoggingFixer.fix_logging_call (universal_newlines disk)
       = (fixed, S n)
    /\ files (snd run) !! backup
       = Some (written_newlines (linesep w) (universal_newlines disk))
    /\ log (snd run)
       = log w ++ [Wrote backup
                     (written_newlines (linesep w) (universal_newlines disk));
                   write_event w filepath fixed]
    /\ (fst run = Some true ->
        files (snd run) !! filepath
        = Some (written_newlines (linesep w) fixed))
    /\ (linesep w = [newline] -> ~ In carriage_return disk ->
        files (snd run) !! backup = Some disk).
Proof.
  intros backup run Hch. subst run.
  destruct (comprehensive_process_file_effect verbose filepath w)
    as ([(Hf & _ & Hr)|(disk & fixed & n & Hread & Hfix & Hrw)] & _).
  - exfalso. destruct Hch as [Hch|Hch]; [|contradiction].
    apply Hch. rewrite Hf. reflexivity.
  - exists disk, fixed, n. split; [exact Hread|]. split; [exact Hfix|].
    assert (Hb : written w backup = true).
    { destruct Hrw as (_ & _ & _ & R4 & R5).
      destruct Hch as [Hch|Hch]; [|apply R5, Hch].
      destruct (written w backup) eqn:Hb; [reflexivity|].
      exfalso. apply Hch, R4. exact Hb. }
    pose proof Hrw as (R1 & _ & R3 & _ & R5).
    split; [apply R3, Hb|]. split.
    + rewrite R1. fold backup. rewrite Hb. f_equal. f_equal.
      unfold write_event. unfold written in Hb.
      destruct (writable w backup); [|discriminate].
      destruct (breaks w backup); [discriminate|reflexivity].
    + split; [intros Ht; apply R5, Ht|].
      intros Hsep Hcr. etransitivity; [exact (R3 Hb)|]. rewrite Hsep.
      rewrite newlines_round_trip by exact Hcr. reflexivity.
Qed.

Lemma backup_then_overwrite_witness :
  let original := txt "_logger.LogInfo('A {a}', x);" in
  let w := {| files := {[ "Service.cs"%string := original ]};
              writable := fun _ => true;
              breaks := fun path =>
                          if String.eqb path "Service.cs"
                          then Some (Some []) else None;
              linesep := [newline];
              console := fun o => negb (has_mark o);
              log := [];
              stdout := [] |} in
  let run := ComprehensiveFiles.process_file true "Service.cs"%string w in
  files (snd run) !! "Service.cs"%string = Some []
  /\ files (snd run) !! "Service.cs.bak_phase2"%string = Some original.
Proof.
  intros original w run.
  assert (Hfile : files (snd run) !! "Service.cs"%string = Some [])
    by (vm_compute; reflexivity).
  split; [exact Hfile|].
  destruct (backup_then_overwrite true "Service.cs"%string w)
    as (disk & fixed & n & Hread & _ & _ & _ & _ & Hsame).
  - left. fold run. rewrite Hfile. vm_compute. discriminate.
  - assert (Hd : Some disk = Some original)
      by (rewrite <- Hread; vm_compute; reflexivity).
    injection Hd as ->. apply Hsame; [reflexivity|].
    vm_compute. intuition discriminate.
Defined.

(** X12: [process_file] of LogErrorFixer.  No file but the file itself and
    its backup can change; a file whose text has changed has a backup
    that holds the content that was read; when [fix_logerror_patterns]
    raises on the content, nothing is written at all and the result is
    not [True]; on a console that takes every line the function returns. *)
Theorem logerror_process_file_effects (filepath : string) (w : world) :
  let backup := with_added_suffix filepath ".bak_logerror" in
  let run := LogErrorFiles.process_file filepath w in
  (forall path, path <> filepath -> path <> backup ->
     files (snd run) !! path = files w !! path)
  /\ (files (snd run) !! filepath <> files w !! filepath ->
      exists disk,
        files w !! filepath = Some disk
        /\ files (snd run) !! backup
           = Some (written_newlines (linesep w) (universal_newlines disk)))
  /\ (forall disk,
        files w !! filepath = Some disk ->
        LogErrorFixer.fix_logerror_patterns (universal_newlines disk) = None ->
        files (snd run) = files w /\ log (snd run) = log w
        /\ fst run <> Some true)
  /\ (accepts_all w -> exists modified, fst run = Some modified).
Proof.
  intros backup run. subst run.
  destruct (logerror_process_file_effect filepath w)
    as ([(Hf & Hl & Hr)|(disk & fixed & n & Hread & Hfix & Hrw)] & Hret).
  - split; [intros path _ _; rewrite Hf; reflexivity|].
    split; [intros Hch; exfalso; apply Hch; rewrite Hf; reflexivity|].
    split; [auto|exact Hret].
  - destruct (rewritten_frame _ _ _ _ _ _ _ Hrw) as [Hfr _].
    split; [exact Hfr|]. split.
    + intros Hch. exists disk. split; [exact Hread|].
      exact (proj1 (rewritten_backup _ _ _ _ _ _ _ Hrw Hch)).
    + split; [|exact Hret].
      intros d Hd Hnone. exfalso.
      assert (d = disk) by congruence. subst d. congruence.
Qed.

Lemma logerror_process_file_effects_witness :
  let w := {| files := {[ "Service.cs"%string
                          := txt "_logger.LogError(ex, 'Failed\dRetrying');" ]};
              writable := fun _ => true;
              breaks := fun _ => None;
              linesep := [newline];
              console := fun _ => true;
              log := [];
              stdout := [] |} in
  let run := LogErrorFiles.process_file "Service.cs"%string w in
  files (snd run) = files w /\ log (snd run) = log w
  /\ fst run <> Some true.
Proof.
  intros w run.
  destruct (logerror_process_file_effects "Service.cs"%string w)
    as (_ & _ & Hraise & _).
  apply (Hraise (txt "_logger.LogError(ex, 'Failed\dRetrying');")).
  - reflexivity.
  - vm_compute. reflexivity.
Defined.

End FileEffects.

(** ** Reading and writing lines *)

Section LinesOfFiles.

Import ParameterFiles Shapes.

Lemma lstrip_by_same (p : ascii -> bool) (s : text) :
  match s with c :: _ => p c = false | [] => True end ->
  Py.lstrip_by p s = s.
Proof. destruct s as [|c s]; cbn [Py.lstrip_by]; [auto|]. intros ->. auto. Qed.

Lemma rstrip_newline_body (body : text) :
  ~ In newline body ->
  rstrip_newline body = body /\ rstrip_newline (body ++ [newline]) = body.
Proof.
  intros Hb. unfold rstrip_newline, Py.rstrip_by.
  assert (Hrev : Py.lstrip_by (chr_is newline) (rev body) = rev body).
  { apply lstrip_by_same. destruct (rev body) as [|c r] eqn:Hr; [exact I|].
    unfold chr_is. apply Ascii.eqb_neq. intros <-.
    apply Hb, in_rev. rewrite Hr. left; reflexivity. }
  split.
  - rewrite Hrev. apply rev_involutive.
  - rewrite rev_unit. cbn [Py.lstrip_by]. unfold chr_is at 1.
    rewrite Ascii.eqb_refl, Hrev. apply rev_involutive.
Qed.

Lemma ends_lines_after_newline (a t : text) :
  (if ends_lines (a ++ newline :: t) then a ++ newline :: t
   else (a ++ newline :: t) ++ [newline])
  = a ++ newline :: (if ends_lines t then t else t ++ [newline]).
Proof.
  unfold ends_lines. rewrite rev_app_distr. cbn [rev].
  destruct (rev t) as [|c r] eqn:Hr.
  - apply (f_equal (@rev ascii)) in Hr. rewrite rev_involutive in Hr.
    subst t. cbn [rev app]. rewrite Ascii.eqb_refl. reflexivity.
  - cbn [app].
    destruct (Ascii.eqb c newline); [reflexivity|].
    rewrite <- app_assoc. reflexivity.
Qed.

Lemma readlines_go_round_trip : forall s cur,
  ~ In newline cur ->
  with_newlines (map rstrip_newline (readlines_go cur s))
  = if ends_lines (rev cur ++ s) then rev cur ++ s
    else (rev cur ++ s) ++ [newline].
Proof.
  induction s as [|c s IH]; intros cur Hcur; cbn [readlines_go].
  - rewrite app_nil_r. destruct cur as [|c cur]; [reflexivity|].
    cbn [map with_newlines flat_map].
    rewrite (proj1 (rstrip_newline_body (rev (c :: cur))
                      ltac:(rewrite <- in_rev; exact Hcur))).
    unfold ends_lines. rewrite rev_involutive, app_nil_r.
    destruct (Ascii.eqb_spec c newline) as [->|_]; [|reflexivity].
    exfalso. apply Hcur. left; reflexivity.
  - destruct (Ascii.eqb_spec c newline) as [->|Hne].
    + cbn [map with_newlines flat_map rev].
      rewrite (proj2 (rstrip_newline_body (rev cur)
                        ltac:(rewrite <- in_rev; exact Hcur))).
      fold (with_newlines (map rstrip_newline (readlines_go [] s))).
      rewrite IH by (intros []). cbn [rev app].
      rewrite ends_lines_after_newline, <- app_assoc. reflexivity.
    + rewrite IH.
      * cbn [rev]. rewrite <- !app_assoc. reflexivity.
      * intros [H|H]; [congruence|auto].
Qed.

Lemma readlines_go_concat : forall s cur,
  concat (readlines_go cur s) = rev cur ++ s.
Proof.
  induction s as [|c s IH]; intros cur; cbn [readlines_go].
  - destruct cur; cbn [concat]; rewrite ?app_nil_r; reflexivity.
  - destruct (Ascii.eqb c newline); cbn [concat]; rewrite IH; cbn [rev];
      rewrite <- ?app_assoc; reflexivity.
Qed.

(** X15: [readlines] loses nothing of the content, and writing the lines
    back without their line feeds and with one line feed each gives the
    content again, with a line feed added at the end when the last line
    had none. *)
Theorem readlines_round_trip (content : text) :
  concat (readlines content) = content
  /\ with_newlines (map rstrip_newline (readlines content))
     = if ends_lines content then content else content ++ [newline].
Proof.
  unfold readlines. split.
  - apply (readlines_go_concat content []).
  - apply (readlines_go_round_trip content []). intros [].
Qed.

End LinesOfFiles.

(** ** Where the captured text comes from *)

Section CapturedFromInput.

Context {R : Type}.


End CapturedFromInput.

Section GroupsOfMatches.


End GroupsOfMatches.

(** ** The number of lines that LogErrorFixer returns *)

Section LineCount.

Import LogErrorFixer.








Lemma not_in_by_test (c : ascii) (s : text) :
  existsb (Ascii.eqb c) s = false -> ~ In c s.
Proof.
  intros H Hin. assert (Ht : existsb (Ascii.eqb c) s = true).
  { apply existsb_exists. exists c. split; [exact Hin|apply Ascii.eqb_refl]. }
  congruence.
Qed.


















End LineCount.

(** ** Changes that [fix_line] counts *)

Section CountedChanges.

Import ComprehensiveLoggingFixer.

Lemma fix_line_fold : forall methods line n,
  let result :=
    fold_left
      (fun (acc : text * nat) method =>
         let (line, changes) := acc in
         let (new_line, changed) :=
           LoggingParameterFixer.fix_logging_call line method in
         if changed then (new_line, changes + 1) else (line, changes))
      methods (line, n) in
  n <= snd result <= n + List.length methods
  /\ (snd result = n -> fst result = line).
Proof.
  induction methods as [|method methods IH]; intros line n;
    cbn [fold_left List.length].
  - cbn [fst snd]. split; [lia|reflexivity].
  - destruct (LoggingParameterFixer.fix_logging_call line method)
      as [new_line [|]].
    + destruct (IH new_line (n + 1)) as [Hle Heq]. cbn zeta in *.
      split; [lia|]. intros Hn. lia.
    + destruct (IH line n) as [Hle Heq]. cbn zeta in *.
      split; [lia|exact Heq].
Qed.

(** X17: [fix_line] counts at most one change for each of the five method
    names, and a line for which it counts none is returned as it was. *)
Theorem fix_line_changes (line : text) :
  snd (LoggingParameterFixer.fix_line line) <= 5
  /\ (snd (LoggingParameterFixer.fix_line line) = 0 ->
      fst (LoggingParameterFixer.fix_line line) = line).
Proof.
  unfold LoggingParameterFixer.fix_line.
  destruct (fix_line_fold logging_methods line 0) as [Hle Heq].
  cbn zeta in *. split; [exact (proj2 Hle)|exact Heq].
Qed.

End CountedChanges.

(** ** [extract_placeholder_values] *)

Section Scanner.

Import ParameterScanner Shapes.

Lemma char_at_skipn : forall (line : text) (i : nat) (c : ascii) (t : text),
  skipn i line = c :: t ->
  char_at line (Z.of_nat i) = Some c
  /\ skipn (S i) line = t
  /\ (Z.of_nat i < Z.of_nat (List.length line))%Z.
Proof.
  intros line i c t H. unfold char_at.
  rewrite (proj2 (Z.leb_le 0 (Z.of_nat i)) (Zle_0_nat i)), Nat2Z.id.
  revert line H. induction i as [|i IH]; intros line H.
  - destruct line as [|x line]; [discriminate|]. injection H as -> ->.
    cbn [nth_error skipn List.length]. repeat split; auto; lia.
  - destruct line as [|x line]; [discriminate|]. cbn [skipn] in H.
    destruct (IH line H) as (H1 & H2 & H3).
    cbn [nth_error List.length]. repeat split; auto; lia.
Qed.

Lemma scanning_at_end (line : text) (i : nat) (st : scan_state) :
  pos st = Z.of_nat i -> skipn i line = [] -> scanning line st = false.
Proof.
  intros Hp Hs. unfold scanning.
  assert (List.length line <= i).
  { pose proof (length_skipn i line) as Hl. rewrite Hs in Hl.
    cbn [List.length] in Hl. lia. }
  rewrite (proj2 (Z.ltb_ge _ _)) by lia. reflexivity.
Qed.

Lemma scan_step_fields (c : ascii) (st : scan_state) :
  pos (scan_step c st) = (pos st + 1)%Z
  /\ method_call (scan_step c st) = method_call st ++ [c].
Proof.
  unfold scan_step.
  repeat match goal with
         | |- context [if ?b then _ else _] => destruct b
         end; cbn [pos method_call]; auto.
Qed.

(** The loop runs over a part of the line that starts at [pos], and stops
    when its test fails. *)
Lemma scan_loop_prefix (line : text) : forall t i st,
  pos st = Z.of_nat i -> skipn i line = t ->
  exists mc rest st',
    scan_loop (List.length t) line st = Some st'
    /\ t = mc ++ rest
    /\ method_call st' = method_call st ++ mc
    /\ pos st' = (pos st + Z.of_nat (List.length mc))%Z
    /\ scanning line st' = false.
Proof.
  induction t as [|c t IH]; intros i st Hp Hs; cbn [List.length scan_loop].
  - exists [], [], st. rewrite (scanning_at_end line i st Hp Hs).
    cbn [app List.length Z.of_nat]. rewrite app_nil_r, Z.add_0_r.
    repeat split; auto; apply (scanning_at_end line i st Hp Hs).
  - destruct (scanning line st) eqn:Hsc.
    + destruct (char_at_skipn line i c t Hs) as (Hc & Hs' & _).
      rewrite Hp, Hc.
      destruct (scan_step_fields c st) as [Hpos Hmc].
      destruct (IH (S i) (scan_step c st)) as (mc & rest & st' & H1 & H2 & H3
                                                 & H4 & H5).
      { rewrite Hpos, Hp. lia. }
      { exact Hs'. }
      exists (c :: mc), rest, st'. rewrite H1. repeat split; auto.
      * cbn [app]. f_equal. exact H2.
      * rewrite H3, Hmc, <- app_assoc. reflexivity.
      * rewrite H4, Hpos. cbn [List.length]. lia.
    + exists [], (c :: t), st. cbn [app List.length Z.of_nat].
      rewrite app_nil_r, Z.add_0_r. repeat split; auto.
Qed.

(** X18: from a start inside the line or behind it,
    [extract_placeholder_values] does not raise; the text it returns is
    the part of the line from [start_pos] to the position it returns, and
    the list of values is empty. *)
Theorem extract_from_position (line : text) (start_pos : Z) :
  (0 <= start_pos)%Z ->
  exists method_call rest,
    extract_placeholder_values line start_pos
    = Some (method_call, [],
            (start_pos + Z.of_nat (List.length method_call))%Z)
    /\ skipn (Z.to_nat start_pos) line = method_call ++ rest.
Proof.
  intros H0. unfold extract_placeholder_values, steps_to_end.
  destruct (scan_loop_prefix line (skipn (Z.to_nat start_pos) line)
              (Z.to_nat start_pos) (scan_init start_pos))
    as (mc & rest & st' & H1 & H2 & H3 & H4 & _).
  { cbn [pos scan_init]. lia. }
  { reflexivity. }
  rewrite length_skipn in H1.
  replace (Z.to_nat (Z.of_nat (List.length line) - start_pos))
    with (List.length line - Z.to_nat start_pos) by lia.
  rewrite H1. cbn [method_call pos scan_init app] in *.
  exists mc, rest. rewrite H3, H4. auto.
Qed.

Lemma extract_from_position_witness :
  exists method_call rest,
    extract_placeholder_values
      (txt "_logger.LogInfo('X {x}, (y)', f(x)); // c") 16
    = Some (method_call, [], (16 + Z.of_nat (List.length method_call))%Z)
    /\ skipn (Z.to_nat 16) (txt "_logger.LogInfo('X {x}, (y)', f(x)); // c")
       = method_call ++ rest.
Proof.
  apply (extract_from_position
           (txt "_logger.LogInfo('X {x}, (y)', f(x)); // c") 16).
  lia.
Defined.

(** X19: a start before the beginning of the line raises [IndexError]. *)
Theorem extract_before_line (line : text) (start_pos : Z) :
  (start_pos < - Z.of_nat (List.length line))%Z ->
  extract_placeholder_values line start_pos = None.
Proof.
  intros H. unfold extract_placeholder_values, steps_to_end.
  destruct (Z.to_nat (Z.of_nat (List.length line) - start_pos)) as [|fuel]
    eqn:Hf; [lia|].
  cbn [scan_loop]. unfold scanning, char_at. cbn [pos paren_count scan_init].
  rewrite (proj2 (Z.ltb_lt _ _)) by lia. cbn [andb Z.ltb Z.compare].
  rewrite (proj2 (Z.leb_gt _ _)) by lia.
  rewrite (proj2 (Z.leb_gt _ _)) by lia. reflexivity.
Qed.

Lemma extract_before_line_witness :
  extract_placeholder_values (txt "f(x)") (-5) = None.
Proof.
  apply (extract_before_line (txt "f(x)") (-5)). cbn. lia.
Defined.

Lemma depth_after_app : forall p q d,
  depth_after d (p ++ q) = depth_after (depth_after d p) q.
Proof. induction p as [|c p IH]; intros q d; cbn [app depth_after]; auto. Qed.

Lemma scan_step_plain (c : ascii) (st : scan_state) :
  in_string st = false -> escape_next st = false ->
  c <> dquote -> c <> backslash ->
  in_string (scan_step c st) = false
  /\ escape_next (scan_step c st) = false
  /\ paren_count (scan_step c st) = depth_after (paren_count st) [c].
Proof.
  intros Hi He Hq Hb. unfold scan_step. rewrite Hi, He.
  rewrite (proj2 (Ascii.eqb_neq c backslash) Hb).
  rewrite (proj2 (Ascii.eqb_neq c dquote) Hq).
  cbn [andb negb depth_after]. rewrite !andb_true_r.
  destruct (Ascii.eqb c "("); [cbn; auto|].
  destruct (Ascii.eqb c ")"); cbn; auto.
Qed.

(** Outside strings the loop follows the depth of the parentheses. *)
Lemma scan_loop_plain (line : text) : forall t i st,
  pos st = Z.of_nat i -> skipn i line = t ->
  in_string st = false -> escape_next st = false ->
  free_of [dquote; backslash] t ->
  exists mc rest st',
    scan_loop (List.length t) line st = Some st'
    /\ t = mc ++ rest
    /\ method_call st' = method_call st ++ mc
    /\ pos st' = (pos st + Z.of_nat (List.length mc))%Z
    /\ (forall p q, mc = p ++ q -> q <> [] ->
          (0 < depth_after (paren_count st) p)%Z)
    /\ ((depth_after (paren_count st) mc <= 0)%Z \/ rest = []).
Proof.
  induction t as [|c t IH]; intros i st Hp Hs Hi He Hfree;
    cbn [List.length scan_loop].
  - exists [], [], st. rewrite (scanning_at_end line i st Hp Hs).
    cbn [app List.length Z.of_nat]. rewrite app_nil_r, Z.add_0_r.
    split; [reflexivity|]. split; [reflexivity|]. split; [reflexivity|].
    split; [reflexivity|]. split; [|right; reflexivity].
    intros p q Hpq Hq. symmetry in Hpq.
    apply app_eq_nil in Hpq as [_ ->]. congruence.
  - destruct (char_at_skipn line i c t Hs) as (Hc & Hs' & Hlt).
    unfold scanning. rewrite Hp, (proj2 (Z.ltb_lt _ _) Hlt). cbn [andb].
    destruct (Z.ltb_spec 0 (paren_count st)) as [Hd|Hd].
    + rewrite Hc.
      assert (Hcq : c <> dquote).
      { intros ->. apply (Hfree dquote); left; reflexivity. }
      assert (Hcb : c <> backslash).
      { intros ->. apply (Hfree backslash);
          [right; left; reflexivity|left; reflexivity]. }
      destruct (scan_step_plain c st Hi He Hcq Hcb) as (Hi' & He' & Hd').
      destruct (scan_step_fields c st) as [Hpos Hmc].
      destruct (IH (S i) (scan_step c st))
        as (mc & rest & st' & H1 & H2 & H3 & H4 & H5 & H6); auto.
      { rewrite Hpos, Hp. lia. }
      { intros x Hx Hin. apply (Hfree x Hx). right; exact Hin. }
      exists (c :: mc), rest, st'. rewrite H1.
      split; [reflexivity|]. split; [cbn [app]; f_equal; exact H2|].
      split; [rewrite H3, Hmc, <- app_assoc; reflexivity|].
      split; [rewrite H4, Hpos; cbn [List.length]; lia|].
      split.
      * intros p q Hpq Hq. destruct p as [|x p]; [exact Hd|].
        cbn [app] in Hpq. injection Hpq as <- Hpq.
        change (depth_after (paren_count st) (c :: p))
          with (depth_after (depth_after (paren_count st) [c]) p).
        rewrite <- Hd'. exact (H5 p q Hpq Hq).
      * change (depth_after (paren_count st) (c :: mc))
          with (depth_after (depth_after (paren_count st) [c]) mc).
        rewrite <- Hd'. exact H6.
    + exists [], (c :: t), st.
      cbn [app List.length Z.of_nat]. rewrite app_nil_r, Z.add_0_r.
      split; [reflexivity|]. split; [reflexivity|]. split; [reflexivity|].
      split; [exact Hp|]. split; [|left; cbn [depth_after]; exact Hd].
      intros p q Hpq Hq. symmetry in Hpq.
      apply app_eq_nil in Hpq as [_ ->]. congruence.
Qed.

(** X20: when the rest of the line from [start_pos] on has no double quote
    and no backslash, the scan stops right behind the parenthesis that
    closes the one it started in: the depth is positive before every
    character that is scanned, and it is zero behind the last one unless
    the line ended first. *)
Theorem extract_to_closing_parenthesis (line : text) (start_pos : Z) :
  (0 <= start_pos)%Z ->
  free_of [dquote; backslash] (skipn (Z.to_nat start_pos) line) ->
  exists method_call rest,
    extract_placeholder_values line start_pos
    = Some (method_call, [],
            (start_pos + Z.of_nat (List.length method_call))%Z)
    /\ skipn (Z.to_nat start_pos) line = method_call ++ rest
    /\ (forall p q, method_call = p ++ q -> q <> [] ->
          (0 < depth_after 1 p)%Z)
    /\ (depth_after 1 method_call = 0%Z \/ rest = []).
Proof.
  intros H0 Hfree.
  destruct (scan_loop_plain line (skipn (Z.to_nat start_pos) line)
              (Z.to_nat start_pos) (scan_init start_pos))
    as (mc & rest & st' & H1 & H2 & H3 & H4 & H5 & H6); auto.
  { cbn [pos scan_init]. lia. }
  exists mc, rest. cbn [paren_count scan_init pos method_call app] in *.
  split.
  { unfold extract_placeholder_values, steps_to_end.
    rewrite length_skipn in H1.
    replace (Z.to_nat (Z.of_nat (List.length line) - start_pos))
      with (List.length line - Z.to_nat start_pos) by lia.
    rewrite H1, H3, H4. reflexivity. }
  split; [exact H2|]. split; [exact H5|].
  destruct H6 as [Hle|Hrest]; [|right; exact Hrest]. left.
  destruct (exists_last (l := mc)) as (p & c & ->).
  { intros ->. cbn [depth_after] in Hle. lia. }
  pose proof (H5 p [c] eq_refl ltac:(discriminate)) as Hp.
  rewrite depth_after_app in *. cbn [depth_after] in *.
  destruct (Ascii.eqb c "("); [lia|]. destruct (Ascii.eqb c ")"); lia.
Qed.

Lemma extract_to_closing_parenthesis_witness :
  exists method_call rest,
    extract_placeholder_values (txt "Log(f(a, b), c); g(d)") 4
    = Some (method_call, [], (4 + Z.of_nat (List.length method_call))%Z)
    /\ skipn (Z.to_nat 4) (txt "Log(f(a, b), c); g(d)") = method_call ++ rest
    /\ (forall p q, method_call = p ++ q -> q <> [] ->
          (0 < depth_after 1 p)%Z)
    /\ (depth_after 1 method_call = 0%Z \/ rest = []).
Proof.
  apply (extract_to_closing_parenthesis (txt "Log(f(a, b), c); g(d)") 4).
  - lia.
  - intros c Hc. each_case Hc; apply not_in_by_test; vm_compute; reflexivity.
Defined.

End Scanner.

(** ** Two placeholders with different names *)

Section TwoNames.

Import ComprehensiveLoggingFixer.

Lemma replace_go_without_brace (x new c : text) :
  ~ In "{"%char c -> Py.replace_go (Py.braces x) new 0 c = c.
Proof.
  intros Hc. pose proof (replace_go_pass x new c [] Hc) as H.
  rewrite !app_nil_r in H. exact H.
Qed.

Lemma findall_without_brace (c : text) :
  ~ In "{"%char c -> findall1 placeholder_re c = [].
Proof.
  intros Hc. unfold findall1, finditer. cbn [scan].
  pose proof (search_placeholder_skip c None [] [] Hc) as H.
  rewrite app_nil_r in H. rewrite H. reflexivity.
Qed.

(** X21: in a template [a{x}b{y}c] with two different names,
    [re.findall] lists [x] and [y], and the binding loop gives [{y}] the
    second argument.  [{x}] gets the first argument, unless the text of
    the first argument is the name [y]: then the second replacement takes
    it too, and both placeholders end with the second argument. *)
Theorem two_names_bound_in_turn (a b c x y v0 v1 : text) (vs : list text) :
  ~ In "{"%char a -> ~ In "{"%char b -> ~ In "{"%char c ->
  x <> [] -> ~ In "}"%char x ->
  y <> [] -> ~ In "{"%char y -> ~ In "}"%char y -> y <> x ->
  ~ In "{"%char v0 -> ~ In "}"%char v0 ->
  let template_str := a ++ Py.braces x ++ b ++ Py.braces y ++ c in
  findall1 placeholder_re template_str = [x; y]
  /\ bind (findall1 placeholder_re template_str) (v0 :: v1 :: vs) template_str
     = a ++ Py.braces (if text_eqb v0 y then v1 else v0) ++ b
       ++ Py.braces v1 ++ c.
Proof.
  intros Ha Hb Hc Hx1 Hx2 Hy1 Hy2 Hy3 Hyx Hv1 Hv2 template_str.
  assert (Hf : findall1 placeholder_re template_str = [x; y]).
  { unfold template_str.
    rewrite findall_placeholder by assumption.
    rewrite findall_placeholder by assumption.
    rewrite findall_without_brace by assumption. reflexivity. }
  split; [exact Hf|]. rewrite Hf. cbn [bind]. unfold template_str.
  assert (H1 : Py.replace (Py.braces x) (Py.braces v0)
                 (a ++ Py.braces x ++ b ++ Py.braces y ++ c)
               = a ++ Py.braces v0 ++ b ++ Py.braces y ++ c).
  { rewrite replace_braces.
    rewrite replace_go_pass, replace_go_at, replace_go_pass,
      replace_go_pass_braces, replace_go_without_brace by assumption.
    reflexivity. }
  rewrite H1. destruct (text_eqb v0 y) eqn:He.
  - apply text_eqb_eq in He. subst v0.
    apply replace_two_occurrences; auto.
    rewrite replace_braces. apply replace_go_without_brace. exact Hc.
  - assert (Hne : v0 <> y).
    { intros ->. rewrite (proj2 (text_eqb_eq y y) eq_refl) in He.
      discriminate. }
    rewrite replace_braces.
    rewrite replace_go_pass, replace_go_pass_braces, replace_go_pass,
      replace_go_at, replace_go_without_brace by assumption.
    reflexivity.
Qed.

Lemma two_names_bound_in_turn_witness :
  findall1 placeholder_re (txt "Swap {first} and {second}.")
  = [txt "first"; txt "second"]
  /\ bind (findall1 placeholder_re (txt "Swap {first} and {second}."))
       [txt "second"; txt "first"] (txt "Swap {first} and {second}.")
     = txt "Swap {first} and {first}.".
Proof.
  apply (two_names_bound_in_turn
           (txt "Swap ") (txt " and ") (txt ".") (txt "first") (txt "second")
           (txt "second") (txt "first") []);
    try discriminate; apply not_in_by_test; reflexivity.
Defined.

End TwoNames.
